(** * Proportio: the validated calculation core

    A shallow embedding of the five pure functions of
    [src/proportion_server.py] ([percent_of], [solve_proportion],
    [scale_by_ratio], [direct_k], [resize_dimensions]) and of the model
    validator of [src/models.py], over IEEE-754 binary64 numbers.

    Python's [float] is the kernel's primitive [float] (binary64, round to
    nearest even); the arguments are floats, as annotated in the source, or
    [None] where the source says [Optional].  Assertions are enabled (the
    interpreter does not run with [-O]): a failed [assert] raises
    [AssertionError] with the message of the source.  The functions run in a
    small monad that carries the exception and a trace of the arithmetic
    operations and log records performed so far, so that "fails before any
    arithmetic" can be stated.

    The last part of the file bounds the rounding error of binary64
    multiplication, division and addition from their specification in
    [SpecFloat], and uses the bounds to say how far re-substitution and
    additivity hold in floating-point arithmetic. *)

From Stdlib Require Import ZArith List String Bool Lia Floats Reals Lra.
Import ListNotations.


(** ** Exceptions, events and the evaluation monad *)

Inductive exn : Type :=
| AssertionError (msg : string)
| ZeroDivisionError
| TypeError.

(** What a call does besides returning: each float multiplication and
    division it evaluates, and each [logger.debug] record (with the numbers
    interpolated in the message, in order). *)
Inductive event : Type :=
| EvMul (x y : float)
| EvDiv (x y : float)
| EvDebug (fields : list float).

Definition M (A : Type) : Type := (list event * (exn + A))%type.

Definition ret {A} (x : A) : M A := ([], inr x).

Definition raise {A} (e : exn) : M A := ([], inl e).

Definition bind {A B} (m : M A) (k : A -> M B) : M B :=
  match m with
  | (t, inl e) => (t, inl e)
  | (t, inr x) => let (t', r) := k x in (t ++ t', r)
  end.

Definition tell (e : event) : M unit := ([e], inr tt).

Definition trace {A} (m : M A) : list event := fst m.
Definition result {A} (m : M A) : exn + A := snd m.

Declare Scope py_scope.
Delimit Scope py_scope with py.
Notation "x <- c1 ;; c2" := (bind c1 (fun x => c2))
  (at level 61, c1 at next level, right associativity) : py_scope.
Notation "c1 ;; c2" := (bind c1 (fun _ => c2))
  (at level 61, right associativity) : py_scope.
Open Scope py_scope.

(** [assert cond, msg] *)
Definition py_assert (cond : bool) (msg : string) : M unit :=
  if cond then ret tt else raise (AssertionError msg).

(** ** Float primitives as Python evaluates them *)

(** [x * y] never raises; [x / y] raises [ZeroDivisionError] when [y == 0]
    (for either zero) and is the IEEE quotient otherwise. *)
Definition fmul (x y : float) : M float := tell (EvMul x y) ;; ret (x * y)%float.
Definition fdiv (x y : float) : M float :=
  if (y =? 0)%float then raise ZeroDivisionError
  else tell (EvDiv x y) ;; ret (x / y)%float.
Definition debug (fields : list float) : M unit := tell (EvDebug fields).

(** [x != 0], [x >= 0], [x > 0] on floats: IEEE comparisons, every
    ordered comparison with NaN is false and [NaN != 0] is true. *)
Definition ne0 (x : float) : bool := negb (x =? 0)%float.
Definition ge0 (x : float) : bool := (0 <=? x)%float.
Definition gt0 (x : float) : bool := (0 <? x)%float.

(** ** Optional arguments of [solve_proportion] *)

(** [Optional[float]]: [None] is the missing marker. *)
Definition pyval : Type := option float.

Definition is_None (v : pyval) : bool :=
  match v with None => true | Some _ => false end.

(** [v != 0] where [v] may be [None]: [None != 0] is [True]. *)
Definition py_ne0 (v : pyval) : bool :=
  match v with None => true | Some x => ne0 x end.

(** [x * y] and [x / y]: arithmetic on [None] raises [TypeError]. *)
Definition py_mul (x y : pyval) : M float :=
  match x, y with
  | Some x, Some y => fmul x y
  | _, _ => raise TypeError
  end.

Definition py_div (x y : pyval) : M float :=
  match x, y with
  | Some x, Some y => fdiv x y
  | _, _ => raise TypeError
  end.

(** [sum(1 for v in values if v is None)] *)
Definition none_count (values : list pyval) : Z :=
  fold_right Z.add 0%Z (map (fun _ => 1%Z) (filter is_None values)).

(** ** The calculation core, [src/proportion_server.py] *)

Definition percent_of (part whole : float) : M float :=
  py_assert (ne0 whole) "Division by zero: whole cannot be zero" ;;
  q <- fdiv part whole ;;
  percentage <- fmul q 100 ;;
  debug [part; percentage; whole] ;;
  ret percentage.

Definition solve_proportion (a b c d : pyval) : M float :=
  let values := [a; b; c; d] in
  py_assert (none_count values =? 1)%Z "Exactly one value must be None" ;;
  missing <-
    (if is_None a then
       py_assert (py_ne0 d) "Division by zero: denominator" ;;
       p <- py_mul b c ;; py_div (Some p) d
     else if is_None b then
       py_assert (py_ne0 c) "Division by zero: denominator" ;;
       p <- py_mul a d ;; py_div (Some p) c
     else if is_None c then
       py_assert (py_ne0 b) "Division by zero: denominator" ;;
       p <- py_mul a d ;; py_div (Some p) b
     else
       py_assert (py_ne0 a) "Division by zero: denominator" ;;
       p <- py_mul b c ;; py_div (Some p) a) ;;
  debug [missing] ;;
  ret missing.

Definition scale_by_ratio (value ratio : float) : M float :=
  scaled_result <- fmul value ratio ;;
  debug [value; ratio; scaled_result] ;;
  ret scaled_result.

Definition direct_k (x y : float) : M float :=
  py_assert (ne0 x) "Division by zero: x cannot be zero" ;;
  k <- fdiv y x ;;
  debug [k; y; x] ;;
  ret k.

Definition resize_dimensions (width height scale : float) : M (float * float) :=
  py_assert (ge0 width) "Width must be non-negative" ;;
  py_assert (ge0 height) "Height must be non-negative" ;;
  py_assert (gt0 scale) "Scale factor must be positive" ;;
  new_width <- fmul width scale ;;
  new_height <- fmul height scale ;;
  debug [width; height; scale; new_width; new_height] ;;
  ret (new_width, new_height).

(** ** The model validator, [src/models.py] *)

Record ProportionInput : Type := {
  pa : pyval;
  pb : pyval;
  pc : pyval;
  pd : pyval
}.

(** [ProportionInput.validate_exactly_one_none] *)
Definition validate_exactly_one_none (self : ProportionInput) : M ProportionInput :=
  let values := [pa self; pb self; pc self; pd self] in
  py_assert (none_count values =? 1)%Z
    "Exactly one value must be None (missing) to solve proportion" ;;
  ret self.

(** ** The error taxonomy

    Every failure of the core is an [AssertionError]; its kind is read off
    the message of the failed assertion. *)

Definition ZeroDenominator (what : string) : exn :=
  AssertionError ("Division by zero: " ++ what).
Definition InvalidMissingCount : exn :=
  AssertionError "Exactly one value must be None".
Definition NegativeDimension (dim : string) : exn :=
  AssertionError (dim ++ " must be non-negative").
Definition NonPositiveScale : exn :=
  AssertionError "Scale factor must be positive".

(** ** Facts about binary64 comparisons and zeros *)

Module FloatFacts.

Definition is_zero_sf (x : spec_float) : bool :=
  match x with S754_zero _ => true | _ => false end.

Lemma eqb_zero (x : float) : (x =? 0)%float = is_zero_sf (Prim2SF x).
Proof.
  rewrite eqb_spec. change (Prim2SF 0) with (S754_zero false).
  destruct (Prim2SF x) as [s|s| |s m e]; try destruct s; reflexivity.
Qed.

Lemma ne0_spec (x : float) : ne0 x = negb (is_zero_sf (Prim2SF x)).
Proof. unfold ne0. now rewrite eqb_zero. Qed.

Lemma eqb_zero_cases (x : float) :
  (x =? 0)%float = true -> x = 0%float \/ x = (-0)%float.
Proof.
  rewrite eqb_zero. intros H.
  destruct (Prim2SF x) as [s|s| |s m e] eqn:E; try discriminate.
  destruct s; [right | left]; apply Prim2SF_inj; rewrite E; reflexivity.
Qed.

Lemma ne0_false (x : float) :
  ne0 x = false <-> x = 0%float \/ x = (-0)%float.
Proof.
  unfold ne0. rewrite negb_false_iff. split; [apply eqb_zero_cases|].
  intros [-> | ->]; reflexivity.
Qed.

Lemma ltb_zero_not_ge0 (x : float) : (x <? 0)%float = true -> ge0 x = false.
Proof.
  unfold ge0. rewrite ltb_spec, leb_spec. change (Prim2SF 0) with (S754_zero false).
  destruct (Prim2SF x) as [s|s| |s m e]; try destruct s; cbn; congruence.
Qed.

Lemma leb_zero_not_gt0 (x : float) : (x <=? 0)%float = true -> gt0 x = false.
Proof.
  unfold gt0. rewrite ltb_spec, leb_spec. change (Prim2SF 0) with (S754_zero false).
  destruct (Prim2SF x) as [s|s| |s m e]; try destruct s; cbn; congruence.
Qed.

Lemma is_nan_spec (x : float) :
  is_nan x = match Prim2SF x with S754_nan => true | _ => false end.
Proof.
  unfold is_nan. rewrite eqb_spec. unfold SFeqb.
  destruct (Prim2SF x) as [s|s| |s m e]; try destruct s; cbn;
    rewrite ?Z.compare_refl, ?Pos.compare_cont_refl; reflexivity.
Qed.

End FloatFacts.

(** ** Running the monad *)

Lemma bind_assert_true {A} (msg : string) (k : unit -> M A) :
  bind (py_assert true msg) k = k tt.
Proof. unfold bind, py_assert, ret. destruct (k tt). reflexivity. Qed.

Lemma fdiv_ne0 (x y : float) :
  ne0 y = true -> fdiv x y = ([EvDiv x y], inr (x / y)%float).
Proof.
  unfold ne0, fdiv. intros H. apply negb_true_iff in H. rewrite H. reflexivity.
Qed.

(** The four ways in which exactly one slot is missing. *)
Lemma none_count_one (a b c d : pyval) :
  none_count [a; b; c; d] = 1%Z <->
  (exists y z w, (a, b, c, d) = (None, Some y, Some z, Some w)) \/
  (exists x z w, (a, b, c, d) = (Some x, None, Some z, Some w)) \/
  (exists x y w, (a, b, c, d) = (Some x, Some y, None, Some w)) \/
  (exists x y z, (a, b, c, d) = (Some x, Some y, Some z, None)).
Proof.
  split.
  - destruct a as [x|], b as [y|], c as [z|], d as [w|]; cbn; intros H;
      try discriminate H.
    + do 3 right; eauto.
    + do 2 right; left; eauto.
    + right; left; eauto.
    + left; eauto.
  - intros [(y & z & w & E)|[(x & z & w & E)|[(x & y & w & E)|(x & y & z & E)]]];
      inversion E; reflexivity.
Qed.

(** ** percent_of *)

(** C3: for [whole != 0], [percent_of part whole] returns exactly
    [(part / whole) * 100] in binary64 arithmetic, with no further rounding;
    for every [part], [percent_of part 0] fails with ZeroDenominator. *)
Theorem percent_of_spec :
  (forall part whole : float, ne0 whole = true ->
     result (percent_of part whole) = inr ((part / whole) * 100)%float) /\
  (forall part : float,
     result (percent_of part 0) = inl (ZeroDenominator "whole cannot be zero")).
Proof.
  split.
  - intros part whole H. unfold percent_of.
    rewrite H, bind_assert_true, (fdiv_ne0 _ _ H). reflexivity.
  - intros part. reflexivity.
Qed.

Lemma percent_of_spec_witness :
  result (percent_of 25 100) = inr 25%float.
Proof.
  exact (proj1 percent_of_spec 25%float 100%float eq_refl).
Defined.

(** ** solve_proportion *)

(** The run of a branch whose divisor passed its check: the product, then
    the quotient, then the log record. *)
Definition solved (x y z : float) : M float :=
  ([EvMul x y; EvDiv (x * y) z; EvDebug [((x * y) / z)%float]],
   inr ((x * y) / z)%float).

(** What each branch of [solve_proportion] does once the count is one. *)
Lemma solve_for_a (b c d : float) :
  solve_proportion None (Some b) (Some c) (Some d)
  = if ne0 d then solved b c d else ([], inl (ZeroDenominator "denominator")).
Proof.
  unfold solve_proportion; cbn. destruct (ne0 d) eqn:E; [|reflexivity].
  cbn. rewrite (fdiv_ne0 _ _ E). reflexivity.
Qed.

Lemma solve_for_b (a c d : float) :
  solve_proportion (Some a) None (Some c) (Some d)
  = if ne0 c then solved a d c else ([], inl (ZeroDenominator "denominator")).
Proof.
  unfold solve_proportion; cbn. destruct (ne0 c) eqn:E; [|reflexivity].
  cbn. rewrite (fdiv_ne0 _ _ E). reflexivity.
Qed.

Lemma solve_for_c (a b d : float) :
  solve_proportion (Some a) (Some b) None (Some d)
  = if ne0 b then solved a d b else ([], inl (ZeroDenominator "denominator")).
Proof.
  unfold solve_proportion; cbn. destruct (ne0 b) eqn:E; [|reflexivity].
  cbn. rewrite (fdiv_ne0 _ _ E). reflexivity.
Qed.

Lemma solve_for_d (a b c : float) :
  solve_proportion (Some a) (Some b) (Some c) None
  = if ne0 a then solved b c a else ([], inl (ZeroDenominator "denominator")).
Proof.
  unfold solve_proportion; cbn. destruct (ne0 a) eqn:E; [|reflexivity].
  cbn. rewrite (fdiv_ne0 _ _ E). reflexivity.
Qed.

(** A branch that returns [x] returned its quotient. *)
Lemma solved_result (t : bool) (x y z v : float) :
  result (if t then solved x y z else ([], inl (ZeroDenominator "denominator")))
  = inr v -> v = ((x * y) / z)%float.
Proof. destruct t; cbn; intros H; [now injection H|discriminate H]. Qed.

(** C1: with exactly one slot missing and the divisor of the branch taken
    nonzero, [solve_proportion] returns the cross-multiplication formula of
    that branch, evaluated in binary64 arithmetic. *)
Theorem solve_proportion_cross_multiplication :
  (forall b c d : float, ne0 d = true ->
     result (solve_proportion None (Some b) (Some c) (Some d))
     = inr ((b * c) / d)%float) /\
  (forall a c d : float, ne0 c = true ->
     result (solve_proportion (Some a) None (Some c) (Some d))
     = inr ((a * d) / c)%float) /\
  (forall a b d : float, ne0 b = true ->
     result (solve_proportion (Some a) (Some b) None (Some d))
     = inr ((a * d) / b)%float) /\
  (forall a b c : float, ne0 a = true ->
     result (solve_proportion (Some a) (Some b) (Some c) None)
     = inr ((b * c) / a)%float).
Proof.
  split; [|split; [|split]]; intros x y z H.
  - rewrite solve_for_a, H. reflexivity.
  - rewrite solve_for_b, H. reflexivity.
  - rewrite solve_for_c, H. reflexivity.
  - rewrite solve_for_d, H. reflexivity.
Qed.

Lemma solve_proportion_cross_multiplication_witness :
  result (solve_proportion None (Some 4%float) (Some 6%float) (Some 8%float))
  = inr 3%float.
Proof.
  exact (proj1 solve_proportion_cross_multiplication 4%float 6%float 8%float eq_refl).
Defined.

(** A missing count other than one stops the call at its first assertion. *)
Lemma wrong_count_fails (a b c d : pyval) :
  none_count [a; b; c; d] <> 1%Z ->
  solve_proportion a b c d = ([], inl InvalidMissingCount).
Proof.
  intros H. unfold solve_proportion.
  destruct (Z.eqb_spec (none_count [a; b; c; d]) 1) as [E|_]; [contradiction|].
  reflexivity.
Qed.

(** C2: the missing count is validated first: with 0, 2, 3 or 4 slots
    missing the call fails with InvalidMissingCount and an empty trace (no
    arithmetic evaluated), whatever the values are.  With exactly one slot
    missing the only further check is the one on the divisor of the branch
    taken: the outcome is ZeroDenominator (again with an empty trace) when
    that divisor is zero and the solved value otherwise, so the other three
    values are never checked for zero. *)
Theorem solve_proportion_validation_order :
  (forall a b c d : pyval, none_count [a; b; c; d] <> 1%Z ->
     result (solve_proportion a b c d) = inl InvalidMissingCount /\
     trace (solve_proportion a b c d) = []) /\
  (forall a b c d : pyval,
     (0 <= none_count [a; b; c; d] <= 4)%Z) /\
  (forall b c d : float,
     solve_proportion None (Some b) (Some c) (Some d)
     = if ne0 d then solved b c d else ([], inl (ZeroDenominator "denominator"))) /\
  (forall a c d : float,
     solve_proportion (Some a) None (Some c) (Some d)
     = if ne0 c then solved a d c else ([], inl (ZeroDenominator "denominator"))) /\
  (forall a b d : float,
     solve_proportion (Some a) (Some b) None (Some d)
     = if ne0 b then solved a d b else ([], inl (ZeroDenominator "denominator"))) /\
  (forall a b c : float,
     solve_proportion (Some a) (Some b) (Some c) None
     = if ne0 a then solved b c a else ([], inl (ZeroDenominator "denominator"))).
Proof.
  split; [|split; [|repeat split]].
  - intros a b c d H. rewrite (wrong_count_fails a b c d H). split; reflexivity.
  - intros [a|] [b|] [c|] [d|]; cbn; lia.
  - exact solve_for_a.
  - exact solve_for_b.
  - exact solve_for_c.
  - exact solve_for_d.
Qed.

Lemma solve_proportion_validation_order_witness :
  result (solve_proportion None None (Some 3%float) (Some 0%float))
  = inl InvalidMissingCount /\
  trace (solve_proportion None None (Some 3%float) (Some 0%float)) = [].
Proof.
  apply (proj1 solve_proportion_validation_order). discriminate.
Defined.

(** ** resize_dimensions *)

(** C4: when every precondition holds the call returns exactly
    [(w * s, h * s)]; the preconditions are checked in the order width,
    height, scale, and the first one violated is the one reported: the width
    violation whenever [w >= 0] fails (in particular when [w < 0]), whatever
    the height and scale are; else the height violation whenever [h >= 0]
    fails (in particular when [h < 0]), whatever the scale is; else
    NonPositiveScale whenever [s > 0] fails (in particular when [s <= 0]).
    Each failure happens before any arithmetic. *)
Theorem resize_dimensions_spec :
  (forall w h s : float, ge0 w = true -> ge0 h = true -> gt0 s = true ->
     result (resize_dimensions w h s) = inr ((w * s)%float, (h * s)%float)) /\
  (forall w h s : float, ge0 w = false ->
     resize_dimensions w h s = ([], inl (NegativeDimension "Width"))) /\
  (forall w h s : float, ge0 w = true -> ge0 h = false ->
     resize_dimensions w h s = ([], inl (NegativeDimension "Height"))) /\
  (forall w h s : float, ge0 w = true -> ge0 h = true -> gt0 s = false ->
     resize_dimensions w h s = ([], inl NonPositiveScale)) /\
  (forall w h s : float, (w <? 0)%float = true ->
     resize_dimensions w h s = ([], inl (NegativeDimension "Width"))) /\
  (forall w h s : float, ge0 w = true -> (h <? 0)%float = true ->
     resize_dimensions w h s = ([], inl (NegativeDimension "Height"))) /\
  (forall w h s : float, ge0 w = true -> ge0 h = true -> (s <=? 0)%float = true ->
     resize_dimensions w h s = ([], inl NonPositiveScale)).
Proof.
  assert (W : forall w h s, ge0 w = false ->
            resize_dimensions w h s = ([], inl (NegativeDimension "Width"))).
  { intros w h s Hw. unfold resize_dimensions. rewrite Hw. reflexivity. }
  assert (H : forall w h s, ge0 w = true -> ge0 h = false ->
            resize_dimensions w h s = ([], inl (NegativeDimension "Height"))).
  { intros w h s Hw Hh. unfold resize_dimensions. rewrite Hw, Hh. reflexivity. }
  assert (S : forall w h s, ge0 w = true -> ge0 h = true -> gt0 s = false ->
            resize_dimensions w h s = ([], inl NonPositiveScale)).
  { intros w h s Hw Hh Hs. unfold resize_dimensions. rewrite Hw, Hh, Hs.
    reflexivity. }
  repeat split; auto.
  - intros w h s Hw Hh Hs. unfold resize_dimensions. rewrite Hw, Hh, Hs.
    reflexivity.
  - intros w h s Hw. apply W, FloatFacts.ltb_zero_not_ge0, Hw.
  - intros w h s Hw Hh. apply H; [exact Hw|].
    apply FloatFacts.ltb_zero_not_ge0, Hh.
  - intros w h s Hw Hh Hs. apply S; [exact Hw|exact Hh|].
    apply FloatFacts.leb_zero_not_gt0, Hs.
Qed.

Lemma resize_dimensions_spec_witness :
  result (resize_dimensions 100 50 2) = inr (200%float, 100%float).
Proof.
  exact (proj1 resize_dimensions_spec 100%float 50%float 2%float
           eq_refl eq_refl eq_refl).
Defined.

(** Negative width and negative height together report the width. *)
Example resize_dimensions_both_negative :
  result (resize_dimensions (-100) (-50) 2) = inl (NegativeDimension "Width").
Proof. reflexivity. Qed.

(** NaN satisfies no ordered comparison, so a NaN width is reported by the
    width check even when the height is negative. *)
Example resize_dimensions_nan_width :
  result (resize_dimensions nan (-50) 2) = inl (NegativeDimension "Width").
Proof. reflexivity. Qed.

(** ** scale_by_ratio *)

(** C6: [scale_by_ratio] has no precondition: on every pair of doubles it
    returns [value * ratio]; a product that overflows is returned as an
    infinity and one that underflows as a zero. *)
Theorem scale_by_ratio_total :
  (forall value ratio : float,
     result (scale_by_ratio value ratio) = inr (value * ratio)%float) /\
  result (scale_by_ratio 0x1p+1023 2) = inr infinity /\
  result (scale_by_ratio (-0x1p+1023) 2) = inr neg_infinity /\
  result (scale_by_ratio 0x1p-1074 0.5) = inr 0%float /\
  result (scale_by_ratio 0 (-3)) = inr (-0)%float.
Proof. repeat split. Qed.

(** ** direct_k *)

(** C5 as stated fails on a NaN [x]: [NaN != 0] holds, so the precondition
    passes, and [0 / NaN] is NaN, which is not equal to [0.0]. *)
Lemma direct_k_nan_not_zero :
  ne0 nan = true /\
  result (direct_k nan 0) = inr nan /\
  (nan =? 0)%float = false /\
  ~ (forall x : float, ne0 x = true ->
       exists k, result (direct_k x 0) = inr k /\ (k =? 0)%float = true).
Proof.
  repeat split. intros H.
  destruct (H nan eq_refl) as (k & Hk & Hz).
  cbn in Hk. injection Hk as <-. discriminate Hz.
Qed.

(** C5, amended: for every [x] that is neither zero nor NaN,
    [direct_k x 0] returns a zero ([0.0], or [-0.0] when [x] is negative),
    which compares equal to [0.0]; for every [y], [direct_k 0 y] fails with
    ZeroDenominator; and whenever [x != 0] the call returns [y / x]. *)
Theorem direct_k_spec :
  (forall x : float, ne0 x = true -> is_nan x = false ->
     result (direct_k x 0) = inr (if (x <? 0)%float then (-0)%float else 0%float) /\
     exists k, result (direct_k x 0) = inr k /\ (k =? 0)%float = true) /\
  (forall y : float,
     result (direct_k 0 y) = inl (ZeroDenominator "x cannot be zero")) /\
  (forall x y : float, ne0 x = true ->
     result (direct_k x y) = inr (y / x)%float).
Proof.
  assert (G : forall x y : float, ne0 x = true ->
            result (direct_k x y) = inr (y / x)%float).
  { intros x y H. unfold direct_k.
    rewrite H, bind_assert_true, (fdiv_ne0 _ _ H). reflexivity. }
  repeat split; auto.
  - rewrite (G x 0%float H). f_equal. apply Prim2SF_inj.
    rewrite div_spec, ltb_spec. change (Prim2SF 0) with (S754_zero false).
    rewrite FloatFacts.ne0_spec in H. rewrite FloatFacts.is_nan_spec in H0.
    destruct (Prim2SF x) as [s|s| |s m e]; try discriminate;
      destruct s; reflexivity.
  - exists (0 / x)%float. split; [apply G, H|].
    rewrite FloatFacts.eqb_zero, div_spec. change (Prim2SF 0) with (S754_zero false).
    rewrite FloatFacts.ne0_spec in H. rewrite FloatFacts.is_nan_spec in H0.
    destruct (Prim2SF x) as [s|s| |s m e]; try discriminate; reflexivity.
Qed.

Lemma direct_k_spec_witness :
  result (direct_k 5 0) = inr 0%float.
Proof.
  exact (proj1 (proj1 direct_k_spec 5%float eq_refl eq_refl)).
Defined.

(** ** Every failure is a precondition violation

    The checks leave no path to [ZeroDivisionError] or [TypeError]: whenever
    one of the five functions fails, it fails on one of its assertions. *)

Definition is_assertion (e : exn) : Prop := exists msg, e = AssertionError msg.

(** X1: Whenever one of the five functions fails, the exception is the
    [AssertionError] of one of its own checks: no [ZeroDivisionError] and no
    [TypeError] escapes. *)
Lemma failures_are_assertions :
  (forall part whole e, result (percent_of part whole) = inl e -> is_assertion e) /\
  (forall a b c d e, result (solve_proportion a b c d) = inl e -> is_assertion e) /\
  (forall value ratio e, result (scale_by_ratio value ratio) = inl e -> is_assertion e) /\
  (forall x y e, result (direct_k x y) = inl e -> is_assertion e) /\
  (forall w h s e, result (resize_dimensions w h s) = inl e -> is_assertion e).
Proof.
  split; [|split; [|split; [|split]]].
  - intros part whole e. unfold percent_of. destruct (ne0 whole) eqn:E.
    + rewrite bind_assert_true, (fdiv_ne0 _ _ E). discriminate.
    + intros [= <-]. eexists; reflexivity.
  - intros a b c d e.
    destruct (Z.eq_dec (none_count [a; b; c; d]) 1) as [E|N].
    + apply none_count_one in E.
      destruct E as [(y & z & w & E)|[(x & z & w & E)|[(x & y & w & E)|(x & y & z & E)]]];
        inversion E; subst.
      * rewrite solve_for_a. destruct (ne0 w); [discriminate|].
        intros [= <-]. eexists; reflexivity.
      * rewrite solve_for_b. destruct (ne0 z); [discriminate|].
        intros [= <-]. eexists; reflexivity.
      * rewrite solve_for_c. destruct (ne0 y); [discriminate|].
        intros [= <-]. eexists; reflexivity.
      * rewrite solve_for_d. destruct (ne0 x); [discriminate|].
        intros [= <-]. eexists; reflexivity.
    + rewrite (wrong_count_fails _ _ _ _ N). intros [= <-]. eexists; reflexivity.
  - intros value ratio e. discriminate.
  - intros x y e. unfold direct_k. destruct (ne0 x) eqn:E.
    + rewrite bind_assert_true, (fdiv_ne0 _ _ E). discriminate.
    + intros [= <-]. eexists; reflexivity.
  - intros w h s e. unfold resize_dimensions.
    destruct (ge0 w); [|intros [= <-]; eexists; reflexivity].
    destruct (ge0 h); [|intros [= <-]; eexists; reflexivity].
    destruct (gt0 s); [discriminate|intros [= <-]; eexists; reflexivity].
Qed.

(** ** Negative zero *)

(** C9: the zero checks compare numerically, so [-0.0] counts as zero (the
    values a check rejects are exactly [0.0] and [-0.0]):
    [percent_of part (-0.0)], [direct_k (-0.0) y] and every branch of
    [solve_proportion] whose divisor is [-0.0] fail with ZeroDenominator,
    before any division. *)
Theorem negative_zero_is_zero_denominator :
  ne0 (-0) = false /\
  (forall x : float, ne0 x = false <-> x = 0%float \/ x = (-0)%float) /\
  (forall part : float,
     percent_of part (-0) = ([], inl (ZeroDenominator "whole cannot be zero"))) /\
  (forall y : float,
     direct_k (-0) y = ([], inl (ZeroDenominator "x cannot be zero"))) /\
  (forall b c : float,
     solve_proportion None (Some b) (Some c) (Some (-0)%float)
     = ([], inl (ZeroDenominator "denominator"))) /\
  (forall a d : float,
     solve_proportion (Some a) None (Some (-0)%float) (Some d)
     = ([], inl (ZeroDenominator "denominator"))) /\
  (forall a d : float,
     solve_proportion (Some a) (Some (-0)%float) None (Some d)
     = ([], inl (ZeroDenominator "denominator"))) /\
  (forall b c : float,
     solve_proportion (Some (-0)%float) (Some b) (Some c) None
     = ([], inl (ZeroDenominator "denominator"))).
Proof.
  split; [reflexivity|]. split; [exact FloatFacts.ne0_false|].
  repeat split.
Qed.

(** ** The model validator and the core agree *)

Definition succeeds {A} (m : M A) : Prop := exists x, result m = inr x.

(** Exactly one of the four slots holds the missing marker, in the words of
    the specification and without any counting: one slot is [None] and the
    other three are numbers. *)
Definition exactly_one_missing (a b c d : pyval) : bool :=
  match a, b, c, d with
  | None, Some _, Some _, Some _ => true
  | Some _, None, Some _, Some _ => true
  | Some _, Some _, None, Some _ => true
  | Some _, Some _, Some _, None => true
  | _, _, _, _ => false
  end.

(** The count of the source is one exactly on these four shapes. *)
Lemma none_count_exactly_one (a b c d : pyval) :
  (none_count [a; b; c; d] =? 1)%Z = exactly_one_missing a b c d.
Proof. destruct a, b, c, d; reflexivity. Qed.

Lemma exactly_one_missing_passes_count (a b c d : pyval) :
  exactly_one_missing a b c d = true ->
  result (solve_proportion a b c d) <> inl InvalidMissingCount.
Proof.
  destruct a as [a|], b as [b|], c as [c|], d as [d|]; cbn [exactly_one_missing];
    try discriminate; intros _.
  - rewrite solve_for_d. destruct (ne0 a); discriminate.
  - rewrite solve_for_c. destruct (ne0 b); discriminate.
  - rewrite solve_for_b. destruct (ne0 c); discriminate.
  - rewrite solve_for_a. destruct (ne0 d); discriminate.
Qed.

(** C10: [ProportionInput.validate_exactly_one_none] and the first check of
    [solve_proportion] count the missing markers of the same four slots and
    accept exactly when the count is one, that is, exactly when one slot is
    [None] and the other three are numbers: the validator returns its input
    on these inputs and fails with its assertion on all others,
    [solve_proportion] fails with InvalidMissingCount on exactly the inputs
    the validator rejects, and so an input passes the validator if and only
    if it passes the missing-count check of [solve_proportion].  The count
    itself is the number of [None] slots. *)
Theorem validator_agrees_with_core :
  (forall p : ProportionInput,
     result (validate_exactly_one_none p)
     = (if exactly_one_missing (pa p) (pb p) (pc p) (pd p) then inr p
        else inl (AssertionError
                    "Exactly one value must be None (missing) to solve proportion")) /\
     (result (solve_proportion (pa p) (pb p) (pc p) (pd p)) = inl InvalidMissingCount
      <-> exactly_one_missing (pa p) (pb p) (pc p) (pd p) = false) /\
     (succeeds (validate_exactly_one_none p)
      <-> exactly_one_missing (pa p) (pb p) (pc p) (pd p) = true) /\
     (result (solve_proportion (pa p) (pb p) (pc p) (pd p)) <> inl InvalidMissingCount
      <-> exactly_one_missing (pa p) (pb p) (pc p) (pd p) = true) /\
     (succeeds (validate_exactly_one_none p) <->
      result (solve_proportion (pa p) (pb p) (pc p) (pd p)) <> inl InvalidMissingCount) /\
     (succeeds (validate_exactly_one_none p) <->
      none_count [pa p; pb p; pc p; pd p] = 1%Z) /\
     (result (solve_proportion (pa p) (pb p) (pc p) (pd p)) <> inl InvalidMissingCount <->
      none_count [pa p; pb p; pc p; pd p] = 1%Z)) /\
  (forall a b c d : pyval,
     none_count [a; b; c; d]
     = (match a with None => 1 | Some _ => 0 end
        + match b with None => 1 | Some _ => 0 end
        + match c with None => 1 | Some _ => 0 end
        + match d with None => 1 | Some _ => 0 end)%Z /\
     (none_count [a; b; c; d] = 1%Z <-> exactly_one_missing a b c d = true)) /\
  succeeds (validate_exactly_one_none
              {| pa := Some 3%float; pb := Some 4%float; pc := Some 6%float;
                 pd := None |}) /\
  ~ succeeds (validate_exactly_one_none
                {| pa := None; pb := None; pc := None; pd := None |}) /\
  ~ succeeds (validate_exactly_one_none
                {| pa := Some 3%float; pb := Some 4%float; pc := Some 6%float;
                   pd := Some 8%float |}) /\
  ~ succeeds (validate_exactly_one_none
                {| pa := None; pb := None; pc := Some 6%float;
                   pd := Some 8%float |}) /\
  result (solve_proportion None None None None) = inl InvalidMissingCount /\
  result (solve_proportion (Some 3%float) (Some 4%float) (Some 6%float)
            (Some 8%float)) = inl InvalidMissingCount.
Proof.
  assert (V : forall p : ProportionInput,
            result (validate_exactly_one_none p)
            = (if exactly_one_missing (pa p) (pb p) (pc p) (pd p) then inr p
               else inl (AssertionError
                     "Exactly one value must be None (missing) to solve proportion"))).
  { intros p. unfold validate_exactly_one_none. cbn zeta.
    rewrite none_count_exactly_one.
    destruct (exactly_one_missing (pa p) (pb p) (pc p) (pd p)); reflexivity. }
  assert (C : forall a b c d : pyval,
            result (solve_proportion a b c d) = inl InvalidMissingCount
            <-> exactly_one_missing a b c d = false).
  { intros a b c d. destruct (exactly_one_missing a b c d) eqn:E.
    - split; [|discriminate].
      intros H. exfalso. exact (exactly_one_missing_passes_count a b c d E H).
    - split; [intros _; reflexivity|intros _].
      rewrite wrong_count_fails; [reflexivity|].
      intros N. apply Z.eqb_eq in N. rewrite none_count_exactly_one in N.
      congruence. }
  assert (S : forall p : ProportionInput,
            succeeds (validate_exactly_one_none p)
            <-> exactly_one_missing (pa p) (pb p) (pc p) (pd p) = true).
  { intros p. unfold succeeds. rewrite V.
    destruct (exactly_one_missing (pa p) (pb p) (pc p) (pd p)).
    - split; [intros _; reflexivity|intros _; exists p; reflexivity].
    - split; [intros [x Hx]; discriminate Hx|discriminate]. }
  assert (K : forall a b c d : pyval,
            result (solve_proportion a b c d) <> inl InvalidMissingCount
            <-> exactly_one_missing a b c d = true).
  { intros a b c d. destruct (exactly_one_missing a b c d) eqn:E.
    - split; [intros _; reflexivity|intros _].
      exact (exactly_one_missing_passes_count a b c d E).
    - split; [|discriminate].
      intros H. exfalso. apply H. apply (proj2 (C a b c d)). exact E. }
  assert (N : forall a b c d : pyval,
            none_count [a; b; c; d] = 1%Z <-> exactly_one_missing a b c d = true).
  { intros a b c d. rewrite <- none_count_exactly_one. symmetry. apply Z.eqb_eq. }
  split; [|split; [|split; [|split; [|split; [|split; [|split]]]]]].
  - intros p.
    split; [apply V|]. split; [apply C|]. split; [apply S|]. split; [apply K|].
    split; [rewrite S, K; reflexivity|].
    split; [rewrite S, N; reflexivity|rewrite K, N; reflexivity].
  - intros a b c d. split; [|apply N].
    destruct a, b, c, d; reflexivity.
  - eexists. reflexivity.
  - intros [x H]. vm_compute in H. discriminate H.
  - intros [x H]. vm_compute in H. discriminate H.
  - intros [x H]. vm_compute in H. discriminate H.
  - reflexivity.
  - reflexivity.
Qed.

(** * Rounding errors of binary64 arithmetic

    The kernel's floats are specified by [SpecFloat]: an operation computes
    an exact mantissa and exponent and rounds them with [binary_round_aux].
    This module bounds the error of that rounding by half a unit in the last
    place, which for a normal result is a relative error of at most
    [2^-53]. *)

Module Rounding.

Local Open Scope R_scope.

Definition bpow (e : Z) : R := powerRZ 2 e.

Lemma bpow_gt_0 e : 0 < bpow e.
Proof. apply powerRZ_lt. lra. Qed.

Lemma bpow_add a b : bpow (a + b) = bpow a * bpow b.
Proof. apply powerRZ_add. lra. Qed.

Lemma bpow_0 : bpow 0 = 1.
Proof. reflexivity. Qed.

Lemma bpow_1 : bpow 1 = 2.
Proof. apply powerRZ_1. Qed.

Lemma bpow_succ e : bpow (e + 1) = 2 * bpow e.
Proof. rewrite bpow_add, bpow_1. lra. Qed.

Lemma bpow_pred e : bpow (e - 1) = bpow e / 2.
Proof.
  replace e with ((e - 1) + 1)%Z at 2 by lia. rewrite bpow_succ. lra.
Qed.

Lemma bpow_le a b : (a <= b)%Z -> bpow a <= bpow b.
Proof.
  intros H. replace b with (a + (b - a))%Z by lia. rewrite bpow_add.
  assert (1 <= bpow (b - a)).
  { assert (0 <= b - a)%Z as K by lia. revert K. generalize (b - a)%Z.
    intros z K. pattern z. apply natlike_ind; [rewrite bpow_0; lra| |exact K].
    intros x Hx IH. unfold Z.succ. rewrite bpow_succ. lra. }
  pose proof (bpow_gt_0 a). nra.
Qed.

Lemma IZR_pow2 n : (0 <= n)%Z -> IZR (2 ^ n) = bpow n.
Proof.
  intros H. pattern n. apply natlike_ind; [reflexivity| |exact H].
  intros x Hx IH. rewrite Z.pow_succ_r by exact Hx. unfold Z.succ.
  rewrite mult_IZR, IH, bpow_succ. reflexivity.
Qed.


Lemma IZR_xO p : IZR (Zpos p~0) = 2 * IZR (Zpos p).
Proof. rewrite Pos2Z.inj_xO, mult_IZR. reflexivity. Qed.

Lemma IZR_xI p : IZR (Zpos p~1) = 2 * IZR (Zpos p) + 1.
Proof. rewrite Pos2Z.inj_xI, plus_IZR, mult_IZR. reflexivity. Qed.

Lemma IZR_pos p : 1 <= IZR (Zpos p).
Proof. apply IZR_le. lia. Qed.

(** *** Number of binary digits *)

Lemma digits2_pos_bounds (p : positive) :
  (2 ^ (Zpos (digits2_pos p) - 1) <= Zpos p < 2 ^ Zpos (digits2_pos p))%Z.
Proof.
  induction p as [p IH|p IH|]; cbn [digits2_pos].
  - rewrite Pos2Z.inj_succ. replace (Z.succ (Zpos (digits2_pos p)) - 1)%Z
      with (Z.succ (Zpos (digits2_pos p) - 1)) by lia.
    rewrite !Z.pow_succ_r by lia. lia.
  - rewrite Pos2Z.inj_succ. replace (Z.succ (Zpos (digits2_pos p)) - 1)%Z
      with (Z.succ (Zpos (digits2_pos p) - 1)) by lia.
    rewrite !Z.pow_succ_r by lia. lia.
  - cbn. lia.
Qed.

Lemma Zdigits2_nonneg (m : Z) : (0 <= Zdigits2 m)%Z.
Proof. destruct m; cbn; lia. Qed.

Lemma Zdigits2_bounds (m : Z) :
  (0 < m)%Z -> (2 ^ (Zdigits2 m - 1) <= m < 2 ^ Zdigits2 m)%Z.
Proof. destruct m as [|p|p]; try lia. intros _. apply digits2_pos_bounds. Qed.

(** [Zdigits2] is the only [d] with [2^(d-1) <= m < 2^d]. *)
Lemma Zdigits2_unique (m d : Z) :
  (0 < m)%Z -> (2 ^ (d - 1) <= m < 2 ^ d)%Z -> Zdigits2 m = d.
Proof.
  intros Hm [Hl Hu]. destruct (Zdigits2_bounds m Hm) as [Kl Ku].
  pose proof (Zdigits2_nonneg m) as Hn.
  assert (0 < d)%Z as Hd.
  { destruct (Z.ltb_spec 0 d) as [|N]; [assumption|].
    destruct (Z.eq_dec d 0) as [->|]; [cbn in Hu; lia|].
    rewrite Z.pow_neg_r in Hu by lia. lia. }
  destruct (Z.lt_trichotomy (Zdigits2 m) d) as [L|[E|G]]; [|exact E|].
  - assert (2 ^ Zdigits2 m <= 2 ^ (d - 1))%Z by (apply Z.pow_le_mono_r; lia). lia.
  - assert (2 ^ d <= 2 ^ (Zdigits2 m - 1))%Z by (apply Z.pow_le_mono_r; lia). lia.
Qed.

(** *** Shifting a mantissa right, with round and sticky bits *)

(** [located u mrs]: the real [u] lies in [[m, m + 1)] for the mantissa [m]
    of [mrs], and the round and sticky bits tell on which side of the
    midpoint. *)
Definition located (u : R) (mrs : shr_record) : Prop :=
  let m := IZR (shr_m mrs) in
  match shr_r mrs, shr_s mrs with
  | false, false => u = m
  | false, true => m < u < m + / 2
  | true, false => u = m + / 2
  | true, true => m + / 2 < u < m + 1
  end.

Lemma shr_1_located u mrs :
  (0 <= shr_m mrs)%Z -> located u mrs ->
  located (u / 2) (shr_1 mrs) /\ (0 <= shr_m (shr_1 mrs))%Z /\
  Zdigits2 (shr_m (shr_1 mrs)) = Z.max 0 (Zdigits2 (shr_m mrs) - 1).
Proof.
  destruct mrs as [m r s]. cbn [shr_m]. intros Hm H.
  destruct m as [|p|p]; [|destruct p as [p|p|]|lia];
    unfold located in *; cbn [shr_1 shr_m shr_r shr_s orb] in *;
    try rewrite (IZR_xO p) in H; try rewrite (IZR_xI p) in H;
    (split; [destruct r, s; cbn [orb]; lra|
            split; [lia|cbn [Zdigits2 digits2_pos]; rewrite ?Pos2Z.inj_succ; lia]]).
Qed.

Lemma iter_shr_1_located (n : positive) :
  forall u mrs, (0 <= shr_m mrs)%Z -> located u mrs ->
  located (u * bpow (- Zpos n)) (SpecFloat.iter_pos shr_1 n mrs) /\
  (0 <= shr_m (SpecFloat.iter_pos shr_1 n mrs))%Z /\
  Zdigits2 (shr_m (SpecFloat.iter_pos shr_1 n mrs)) = Z.max 0 (Zdigits2 (shr_m mrs) - Zpos n).
Proof.
  assert (half : bpow (-1) = / 2).
  { unfold bpow, powerRZ. simpl. rewrite Rmult_1_r. reflexivity. }
  induction n as [n IH|n IH|]; intros u mrs Hm H; cbn [SpecFloat.iter_pos].
  - destruct (shr_1_located u mrs Hm H) as (H1 & M1 & D1).
    destruct (IH _ _ M1 H1) as (H2 & M2 & D2).
    destruct (IH _ _ M2 H2) as (H3 & M3 & D3).
    split; [|split; [exact M3|lia]].
    replace (u * bpow (- Zpos n~1)) with (u / 2 * bpow (- Zpos n) * bpow (- Zpos n));
      [exact H3|].
    replace (- Zpos n~1)%Z with (-1 + (- Zpos n + - Zpos n))%Z by lia.
    rewrite !bpow_add, half. lra.
  - destruct (IH _ _ Hm H) as (H2 & M2 & D2).
    destruct (IH _ _ M2 H2) as (H3 & M3 & D3).
    split; [|split; [exact M3|lia]].
    replace (u * bpow (- Zpos n~0)) with (u * bpow (- Zpos n) * bpow (- Zpos n));
      [exact H3|].
    replace (- Zpos n~0)%Z with (- Zpos n + - Zpos n)%Z by lia.
    rewrite !bpow_add. lra.
  - destruct (shr_1_located u mrs Hm H) as (H1 & M1 & D1).
    split; [|split; [exact M1|exact D1]].
    unfold Rdiv in H1. rewrite <- half in H1. exact H1.
Qed.


Lemma shr_located (mrs : shr_record) (e n : Z) (u : R) :
  (0 <= shr_m mrs)%Z -> located u mrs ->
  located (u * bpow (e - snd (shr mrs e n))) (fst (shr mrs e n)) /\
  (0 <= shr_m (fst (shr mrs e n)))%Z /\
  snd (shr mrs e n) = (e + Z.max 0 n)%Z /\
  Zdigits2 (shr_m (fst (shr mrs e n)))
  = Z.max 0 (Zdigits2 (shr_m mrs) - Z.max 0 n).
Proof.
  intros Hm H. pose proof (Zdigits2_nonneg (shr_m mrs)) as Hd.
  destruct n as [|n|n]; cbn [shr fst snd].
  - replace (e - e)%Z with 0%Z by lia. rewrite bpow_0, Rmult_1_r.
    split; [exact H|split; [exact Hm|split; lia]].
  - destruct (iter_shr_1_located n u mrs Hm H) as (H1 & M1 & D1).
    replace (e - (e + Zpos n))%Z with (- Zpos n)%Z by lia.
    split; [exact H1|split; [exact M1|split; lia]].
  - replace (e - e)%Z with 0%Z by lia. rewrite bpow_0, Rmult_1_r.
    split; [exact H|split; [exact Hm|split; lia]].
Qed.

Lemma shr_m_of_loc (m : Z) (l : location) : shr_m (shr_record_of_loc m l) = m.
Proof. destruct l as [|[| |]]; reflexivity. Qed.

(** *** Rounding to nearest, ties to even *)

Lemma round_nearest_even_close (u : R) (mrs : shr_record) :
  located u mrs ->
  Rabs (IZR (round_nearest_even (shr_m mrs) (loc_of_shr_record mrs)) - u) <= / 2 /\
  (round_nearest_even (shr_m mrs) (loc_of_shr_record mrs) = shr_m mrs \/
   round_nearest_even (shr_m mrs) (loc_of_shr_record mrs) = shr_m mrs + 1)%Z.
Proof.
  destruct mrs as [m r s]. unfold located. cbn [shr_m shr_r shr_s loc_of_shr_record].
  intros H.
  destruct r, s; cbn [round_nearest_even]; try destruct (Z.even m);
    rewrite ?plus_IZR; (split; [apply Rabs_le; lra|lia]).
Qed.

Lemma Zdigits2_succ (m : Z) :
  (0 <= m)%Z ->
  Zdigits2 (m + 1) = Zdigits2 m \/
  (Zdigits2 (m + 1) = Zdigits2 m + 1 /\ m + 1 = 2 ^ Zdigits2 m)%Z.
Proof.
  intros Hm. destruct (Z.eq_dec m 0) as [->|N]; [right; split; reflexivity|].
  assert (0 < m)%Z as Hp by lia.
  destruct (Zdigits2_bounds m Hp) as [Hl Hu].
  pose proof (Zdigits2_nonneg m) as Hd.
  destruct (Z.eq_dec (m + 1) (2 ^ Zdigits2 m)) as [E|NE].
  - right. split; [|exact E]. apply Zdigits2_unique; [lia|].
    replace (Zdigits2 m + 1 - 1)%Z with (Zdigits2 m) by lia.
    rewrite Z.pow_add_r by lia. cbn. lia.
  - left. apply Zdigits2_unique; lia.
Qed.

(** *** The binary64 format *)

Lemma fexp_binary64 (x : Z) : fexp prec emax x = Z.max (x - 53) (-1074).
Proof. reflexivity. Qed.


(** The second shift of [binary_round_aux] loses nothing: after rounding,
    the mantissa either still fits or is a power of two one digit too long. *)
Lemma second_shift_exact (m0 m1 e1 : Z) :
  (0 <= m0)%Z -> (m1 = m0 \/ m1 = m0 + 1)%Z ->
  (fexp prec emax (Zdigits2 m0 + e1) <= e1)%Z -> (-1074 <= e1)%Z ->
  let r := shr (shr_record_of_loc m1 loc_Exact) e1
             (fexp prec emax (Zdigits2 m1 + e1) - e1) in
  IZR (shr_m (fst r)) * bpow (snd r) = IZR m1 * bpow e1 /\ (e1 <= snd r)%Z.
Proof.
  intros H0 Hm1 F1 F3. cbn zeta.
  pose proof (Zdigits2_nonneg m0) as Hd0.
  assert (K : (fexp prec emax (Zdigits2 m1 + e1) - e1 <= 0)%Z \/
              ((fexp prec emax (Zdigits2 m1 + e1) - e1 = 1)%Z /\
               exists q, m1 = Zpos q~0)).
  { destruct Hm1 as [->| ->]; [left; lia|].
    destruct (Zdigits2_succ m0 H0) as [->|[-> P]]; [left; lia|].
    rewrite fexp_binary64 in *.
    destruct (Z.eq_dec (Zdigits2 m0) 0) as [Z0|NZ]; [left; lia|].
    destruct (Z.max_spec (Zdigits2 m0 + 1 + e1 - 53) (-1074)) as [[A1 ->]|[A1 ->]];
      [left; lia|].
    destruct (Z.max_spec (Zdigits2 m0 + e1 - 53) (-1074)) as [[A2 Q]|[A2 Q]];
      rewrite Q in F1.
    - left. lia.
    - destruct (Z.eq_dec (Zdigits2 m0 + 1 + e1 - 53 - e1) 1) as [E1|N1];
        [right; split; [exact E1|]|left; lia].
      rewrite P. replace (Zdigits2 m0) with (Z.succ (Zdigits2 m0 - 1)) by lia.
      rewrite Z.pow_succ_r by lia.
      assert (0 < 2 ^ (Zdigits2 m0 - 1))%Z as Hpos by (apply Z.pow_pos_nonneg; lia).
      destruct (2 ^ (Zdigits2 m0 - 1))%Z as [|q|q]; try lia.
      exists q. reflexivity. }
  destruct K as [K|[K [q ->]]].
  - destruct (fexp prec emax (Zdigits2 m1 + e1) - e1)%Z as [|p|p]; try lia;
      cbn [shr shr_record_of_loc fst snd shr_m]; split; (reflexivity || lia).
  - rewrite K. cbn [shr shr_record_of_loc fst snd shr_m SpecFloat.iter_pos shr_1].
    split; [|lia]. rewrite bpow_succ, (IZR_xO q). ring.
Qed.

(** ** One rounding: the error of [binary_round_aux]

    When the exact value [u * 2^ex] is located by the mantissa [mx] and the
    location [lx], a finite result of [binary_round_aux] has the given sign
    and an exponent [e] such that the result is within half a unit in the
    last place, [2^e / 2], of the exact value. *)
Lemma binary_round_aux_error (sx : bool) (mx ex : Z) (lx : location) (u : R) :
  (0 <= mx)%Z -> located u (shr_record_of_loc mx lx) ->
  forall (s : bool) (m : positive) (e : Z),
    binary_round_aux prec emax sx mx ex lx = S754_finite s m e ->
    s = sx /\ Rabs (IZR (Zpos m) * bpow e - u * bpow ex) <= bpow e / 2.
Proof.
  intros Hmx Hloc s m e.
  unfold binary_round_aux, shr_fexp.
  pose proof (shr_located (shr_record_of_loc mx lx) ex
                (fexp prec emax (Zdigits2 mx + ex) - ex) u) as S1.
  rewrite shr_m_of_loc in S1. specialize (S1 Hmx Hloc).
  destruct (shr (shr_record_of_loc mx lx) ex
              (fexp prec emax (Zdigits2 mx + ex) - ex)) as [mrs1 e1].
  cbn [fst snd] in S1. destruct S1 as (L1 & M1 & E1 & D1).
  destruct (round_nearest_even_close _ _ L1) as (C & Hm1).
  pose proof (Zdigits2_nonneg mx) as Hdx.
  assert (F1 : (fexp prec emax (Zdigits2 (shr_m mrs1) + e1) <= e1)%Z).
  { rewrite D1, E1, !fexp_binary64. lia. }
  assert (F3 : (-1074 <= e1)%Z).
  { rewrite E1, !fexp_binary64. lia. }
  pose proof (second_shift_exact (shr_m mrs1) _ e1 M1 Hm1 F1 F3) as X.
  cbn zeta in X.
  destruct (shr (shr_record_of_loc
                   (round_nearest_even (shr_m mrs1) (loc_of_shr_record mrs1))
                   loc_Exact) e1 _) as [mrs2 e2].
  cbn [fst snd] in X. destruct X as [X E2].
  destruct (shr_m mrs2) as [|m2|m2]; try discriminate.
  destruct (Z.leb e2 (emax - prec)); try discriminate.
  intros [= <- <- <-]. split; [reflexivity|].
  rewrite X.
  replace (u * bpow ex) with (u * bpow (ex - e1) * bpow e1).
  2:{ rewrite Rmult_assoc, <- bpow_add. f_equal. f_equal. lia. }
  rewrite <- Rmult_minus_distr_r, Rabs_mult.
  pose proof (bpow_gt_0 e1) as P1. pose proof (bpow_le e1 e2 E2) as P2.
  rewrite (Rabs_pos_eq (bpow e1)) by lra.
  pose proof (Rabs_pos (IZR (round_nearest_even (shr_m mrs1) (loc_of_shr_record mrs1))
                        - u * bpow (ex - e1))) as P3.
  nra.
Qed.


(** ** The real value of a float *)

Definition sgn (s : bool) : R := if s then -1 else 1.

Definition SF2R (x : spec_float) : R :=
  match x with
  | S754_finite s m e => sgn s * (IZR (Zpos m) * bpow e)
  | _ => 0
  end.

Lemma sgn_xorb (a b : bool) : sgn (xorb a b) = sgn a * sgn b.
Proof. destruct a, b; cbn; lra. Qed.

Lemma Rabs_sgn (s : bool) (x : R) : Rabs (sgn s * x) = Rabs x.
Proof.
  destruct s; cbn.
  - replace (-1 * x) with (- x) by lra. apply Rabs_Ropp.
  - f_equal. lra.
Qed.

Lemma Rabs_SF2R_finite (s : bool) (m : positive) (e : Z) :
  Rabs (SF2R (S754_finite s m e)) = IZR (Zpos m) * bpow e.
Proof.
  cbn [SF2R]. rewrite Rabs_sgn. apply Rabs_pos_eq.
  pose proof (IZR_pos m). pose proof (bpow_gt_0 e). nra.
Qed.

(** ** Multiplication *)

Lemma SFmul_error (x y : spec_float) (s : bool) (m : positive) (e : Z) :
  SF64mul x y = S754_finite s m e ->
  Rabs (SF2R (S754_finite s m e) - SF2R x * SF2R y) <= bpow e / 2.
Proof.
  destruct x as [sx|sx| |sx mx ex], y as [sy|sy| |sy my ey]; try discriminate.
  unfold SF64mul; cbn [SFmul]. intros H.
  assert (L : located (IZR (Zpos (mx * my)))
                (shr_record_of_loc (Zpos (mx * my)) loc_Exact)) by reflexivity.
  destruct (binary_round_aux_error (xorb sx sy) (Zpos (mx * my)) (ex + ey)
              loc_Exact _ ltac:(lia) L s m e H) as [-> B].
  cbn [SF2R]. rewrite sgn_xorb.
  replace (sgn sx * sgn sy * (IZR (Zpos m) * bpow e)
           - sgn sx * (IZR (Zpos mx) * bpow ex) * (sgn sy * (IZR (Zpos my) * bpow ey)))
    with (sgn sx * (sgn sy * (IZR (Zpos m) * bpow e
                              - IZR (Zpos (mx * my)) * bpow (ex + ey)))).
  - rewrite !Rabs_sgn. exact B.
  - rewrite Pos2Z.inj_mul, mult_IZR, bpow_add. ring.
Qed.

(** ** Division *)

Lemma new_location_located (q m2 r : Z) :
  (0 < m2)%Z -> (0 <= r < m2)%Z ->
  located (IZR q + IZR r / IZR m2) (shr_record_of_loc q (new_location m2 r)).
Proof.
  intros Hm Hr.
  assert (0 < IZR m2) as Pm by (apply IZR_lt; lia).
  set (x := IZR r / IZR m2).
  assert (Hx : IZR r = x * IZR m2) by (unfold x; field; lra).
  assert (exact : r = 0%Z -> located (IZR q + x) (shr_record_of_loc q loc_Exact)).
  { intros ->. unfold located; cbn. unfold x, Rdiv. lra. }
  assert (lt : (0 < r)%Z -> (2 * r < m2)%Z ->
               located (IZR q + x) (shr_record_of_loc q (loc_Inexact Lt))).
  { intros H0 H. apply IZR_lt in H0, H. rewrite mult_IZR in H.
    unfold located; cbn. nra. }
  assert (eq : (2 * r = m2)%Z ->
               located (IZR q + x) (shr_record_of_loc q (loc_Inexact Eq))).
  { intros H. apply (f_equal IZR) in H. rewrite mult_IZR in H.
    unfold located; cbn. nra. }
  assert (gt : (m2 < 2 * r)%Z ->
               located (IZR q + x) (shr_record_of_loc q (loc_Inexact Gt))).
  { intros H. apply IZR_lt in H. rewrite mult_IZR in H.
    destruct Hr as [_ Hr]. apply IZR_lt in Hr.
    unfold located; cbn. nra. }
  unfold new_location. destruct (Z.even m2) eqn:Ev.
  - unfold new_location_even. destruct (Z.eqb_spec r 0) as [E|N]; [auto|].
    destruct (Z.compare_spec (2 * r) m2); [apply eq|apply lt|apply gt]; lia.
  - unfold new_location_odd. destruct (Z.eqb_spec r 0) as [E|N]; [auto|].
    assert (Z.odd m2 = true) as Od by (rewrite <- Z.negb_even, Ev; reflexivity).
    apply Z.odd_spec in Od. destruct Od as [k Hk].
    destruct (Z.compare_spec (2 * r + 1) m2); [apply lt|apply lt|apply gt]; lia.
Qed.

Lemma SFdiv_core_binary_located (mx my : positive) (ex ey mz ez : Z) (lz : location) :
  SFdiv_core_binary prec emax (Zpos mx) ex (Zpos my) ey = (mz, ez, lz) ->
  exists u : R,
    (0 <= mz)%Z /\ located u (shr_record_of_loc mz lz) /\
    u * bpow ez = IZR (Zpos mx) * bpow ex / (IZR (Zpos my) * bpow ey).
Proof.
  unfold SFdiv_core_binary.
  set (e' := Z.min _ _).
  set (sh := (ex - ey - e')%Z).
  assert (0 <= sh)%Z as Hs by (unfold sh, e'; lia).
  set (m' := match sh with Zpos _ => Z.shiftl (Zpos mx) sh | Z0 => Zpos mx | Zneg _ => 0%Z end).
  assert (Hm' : m' = (Zpos mx * 2 ^ sh)%Z).
  { unfold m'. destruct sh as [|p|p]; [cbn; lia| |lia].
    apply Z.shiftl_mul_pow2. lia. }
  pose proof (Z_div_mod m' (Zpos my) ltac:(lia)) as DM.
  destruct (Z.div_eucl m' (Zpos my)) as [q r]. destruct DM as [DM Hr].
  intros [= <- <- <-].
  exists (IZR q + IZR r / IZR (Zpos my)).
  pose proof (IZR_pos my) as Py. pose proof (IZR_pos mx) as Px.
  assert (0 < m')%Z as Pm'.
  { rewrite Hm'. apply Z.mul_pos_pos; [lia|]. apply Z.pow_pos_nonneg; lia. }
  split; [|split].
  - destruct (Z.le_gt_cases 0 q) as [|N]; [assumption|]. exfalso. nia.
  - apply new_location_located; lia.
  - assert (E : IZR q + IZR r / IZR (Zpos my) = IZR (Zpos mx) * bpow sh / IZR (Zpos my)).
    { rewrite <- (IZR_pow2 sh Hs), <- mult_IZR, <- Hm', DM, plus_IZR, mult_IZR.
      field. lra. }
    assert (X : bpow ex = bpow sh * bpow e' * bpow ey).
    { rewrite <- !bpow_add. f_equal. unfold sh. lia. }
    rewrite E, X. pose proof (bpow_gt_0 ey). field. lra.
Qed.

Lemma SFdiv_error (x y : spec_float) (s : bool) (m : positive) (e : Z) :
  SF64div x y = S754_finite s m e ->
  Rabs (SF2R (S754_finite s m e) - SF2R x / SF2R y) <= bpow e / 2 /\
  SF2R y <> 0.
Proof.
  destruct x as [sx|sx| |sx mx ex], y as [sy|sy| |sy my ey]; try discriminate.
  unfold SF64div; cbn [SFdiv].
  destruct (SFdiv_core_binary prec emax (Zpos mx) ex (Zpos my) ey) as [[mz ez] lz] eqn:E.
  intros H.
  destruct (SFdiv_core_binary_located mx my ex ey mz ez lz E) as (u & Hmz & L & V).
  destruct (binary_round_aux_error (xorb sx sy) mz ez lz u Hmz L s m e H) as [-> B].
  pose proof (IZR_pos my) as Py. pose proof (bpow_gt_0 ey) as Pe.
  assert (NZ : IZR (Zpos my) * bpow ey <> 0) by nra.
  assert (NS : forall b, sgn b <> 0) by (intros []; cbn; lra).
  split.
  - cbn [SF2R]. rewrite sgn_xorb.
    replace (sgn sx * sgn sy * (IZR (Zpos m) * bpow e)
             - sgn sx * (IZR (Zpos mx) * bpow ex) / (sgn sy * (IZR (Zpos my) * bpow ey)))
      with (sgn sx * (sgn sy * (IZR (Zpos m) * bpow e - u * bpow ez))).
    + rewrite !Rabs_sgn. exact B.
    + rewrite V. destruct sx, sy; cbn [sgn]; field; lra.
  - cbn [SF2R]. specialize (NS sy). nra.
Qed.


(** ** Addition *)

Lemma iter_xO_value (m d : positive) :
  IZR (Zpos (Pos.iter xO m d)) = IZR (Zpos m) * bpow (Zpos d).
Proof.
  induction d as [|d IH] using Pos.peano_ind.
  - cbn [Pos.iter]. rewrite (IZR_xO m), bpow_1. ring.
  - rewrite Pos.iter_succ, (IZR_xO (Pos.iter xO m d)), IH, Pos2Z.inj_succ.
    unfold Z.succ. rewrite bpow_succ. ring.
Qed.

Lemma shl_align_value (mx : positive) (ex ex' : Z) :
  IZR (Zpos (fst (shl_align mx ex ex'))) * bpow (snd (shl_align mx ex ex'))
  = IZR (Zpos mx) * bpow ex.
Proof.
  unfold shl_align. destruct (ex' - ex)%Z as [|d|d] eqn:E; cbn [fst snd];
    try reflexivity.
  rewrite iter_xO_value, Rmult_assoc, <- bpow_add. do 2 f_equal. lia.
Qed.

Lemma shl_align_exponent (mx : positive) (ex ex' : Z) :
  (ex' <= ex)%Z -> snd (shl_align mx ex ex') = ex'.
Proof.
  intros H. unfold shl_align. destruct (ex' - ex)%Z as [|d|d] eqn:E; cbn [snd]; lia.
Qed.

Lemma binary_round_error (sx : bool) (mx : positive) (ex : Z)
      (s : bool) (m : positive) (e : Z) :
  binary_round prec emax sx mx ex = S754_finite s m e ->
  s = sx /\ Rabs (IZR (Zpos m) * bpow e - IZR (Zpos mx) * bpow ex) <= bpow e / 2.
Proof.
  unfold binary_round.
  pose proof (shl_align_value mx ex (fexp prec emax (Zpos (digits2_pos mx) + ex))) as V.
  destruct (shl_align mx ex _) as [mz ez]. cbn [fst snd] in V. intros H.
  rewrite <- V.
  apply (binary_round_aux_error sx (Zpos mz) ez loc_Exact (IZR (Zpos mz)));
    [lia|reflexivity|exact H].
Qed.

Lemma IZR_cond_Zopp (s : bool) (z : Z) : IZR (cond_Zopp s z) = sgn s * IZR z.
Proof. destruct s; cbn [cond_Zopp sgn]; rewrite ?opp_IZR; lra. Qed.

Lemma binary_normalize_error (mz ez : Z) (s : bool) (m : positive) (e : Z) :
  binary_normalize prec emax mz ez false = S754_finite s m e ->
  Rabs (SF2R (S754_finite s m e) - IZR mz * bpow ez) <= bpow e / 2.
Proof.
  destruct mz as [|p|p]; cbn [binary_normalize]; try discriminate; intros H;
    destruct (binary_round_error _ _ _ _ _ _ H) as [-> B]; cbn [SF2R sgn].
  - replace (1 * (IZR (Zpos m) * bpow e) - IZR (Zpos p) * bpow ez)
      with (IZR (Zpos m) * bpow e - IZR (Zpos p) * bpow ez) by ring.
    exact B.
  - replace (-1 * (IZR (Zpos m) * bpow e) - IZR (Zneg p) * bpow ez)
      with (- (IZR (Zpos m) * bpow e - IZR (Zpos p) * bpow ez)).
    + rewrite Rabs_Ropp. exact B.
    + change (Zneg p) with (- Zpos p)%Z. rewrite opp_IZR. ring.
Qed.

Lemma SFadd_error (x y : spec_float) (s : bool) (m : positive) (e : Z) :
  SF64add x y = S754_finite s m e ->
  Rabs (SF2R (S754_finite s m e) - (SF2R x + SF2R y)) <= bpow e / 2.
Proof.
  assert (Z : forall t : spec_float, Rabs (SF2R t - SF2R t) <= bpow e / 2).
  { intros t. replace (SF2R t - SF2R t) with 0 by ring. rewrite Rabs_R0.
    pose proof (bpow_gt_0 e). lra. }
  destruct x as [sx|sx| |sx mx ex], y as [sy|sy| |sy my ey];
    unfold SF64add; cbn [SFadd]; try discriminate;
    try (destruct sx, sy; discriminate).
  - intros <-. change (SF2R (S754_zero sx)) with 0. rewrite Rplus_0_l. apply Z.
  - intros <-. change (SF2R (S754_zero sy)) with 0. rewrite Rplus_0_r. apply Z.
  - intros H. apply binary_normalize_error in H.
    rewrite plus_IZR, !IZR_cond_Zopp in H.
    pose proof (shl_align_value mx ex (Z.min ex ey)) as Vx.
    pose proof (shl_align_value my ey (Z.min ex ey)) as Vy.
    rewrite shl_align_exponent in Vx, Vy by lia.
    cbn [SF2R] in *. rewrite <- Vx, <- Vy.
    replace (sgn sx * (IZR (Zpos (fst (shl_align mx ex (Z.min ex ey)))) * bpow (Z.min ex ey))
             + sgn sy * (IZR (Zpos (fst (shl_align my ey (Z.min ex ey)))) * bpow (Z.min ex ey)))
      with ((sgn sx * IZR (Zpos (fst (shl_align mx ex (Z.min ex ey))))
             + sgn sy * IZR (Zpos (fst (shl_align my ey (Z.min ex ey)))))
            * bpow (Z.min ex ey)) by ring.
    exact H.
Qed.


(** ** Normal numbers and the unit roundoff *)

Definition is_normal (x : float) : bool :=
  match classify x with
  | PNormal | NNormal => true
  | _ => false
  end.

Definition F2R (x : float) : R := SF2R (Prim2SF x).

(** The unit roundoff of binary64, [2^-53]. *)
Definition u64 : R := bpow (-53).

Lemma is_normal_spec (x : float) :
  is_normal x = true ->
  exists s m e, Prim2SF x = S754_finite s m e /\ Zpos (digits2_pos m) = 53%Z.
Proof.
  unfold is_normal. rewrite classify_spec. unfold SF64classify, SFclassify.
  destruct (Prim2SF x) as [s|s| |s m e];
    [destruct s; discriminate|destruct s; discriminate|discriminate|].
  intros H. exists s, m, e. split; [reflexivity|].
  destruct (Z.eqb_spec (Zpos (digits2_pos m)) prec) as [E|N]; [exact E|].
  destruct s; discriminate.
Qed.

Lemma half_ulp_normal (s : bool) (m : positive) (e : Z) :
  Zpos (digits2_pos m) = 53%Z ->
  bpow e / 2 <= u64 * Rabs (SF2R (S754_finite s m e)).
Proof.
  intros D. rewrite Rabs_SF2R_finite.
  pose proof (digits2_pos_bounds m) as [L _]. rewrite D in L.
  apply IZR_le in L. rewrite IZR_pow2 in L by lia.
  assert (H : u64 * bpow (53 - 1) = / 2).
  { unfold u64. rewrite <- bpow_add. unfold bpow, powerRZ. simpl.
    rewrite Rmult_1_r. reflexivity. }
  pose proof (bpow_gt_0 e). pose proof (bpow_gt_0 (-53)). fold u64 in *.
  assert (/ 2 <= u64 * IZR (Zpos m)) by (rewrite <- H; nra).
  nra.
Qed.

Lemma fmul_error (x y : float) :
  is_normal (x * y) = true ->
  Rabs (F2R (x * y) - F2R x * F2R y) <= u64 * Rabs (F2R (x * y)).
Proof.
  intros N. destruct (is_normal_spec _ N) as (s & m & e & E & D).
  unfold F2R. rewrite E. rewrite mul_spec in E.
  eapply Rle_trans; [apply SFmul_error, E|apply half_ulp_normal, D].
Qed.

Lemma fdiv_error (x y : float) :
  is_normal (x / y) = true ->
  Rabs (F2R (x / y) - F2R x / F2R y) <= u64 * Rabs (F2R (x / y)) /\ F2R y <> 0.
Proof.
  intros N. destruct (is_normal_spec _ N) as (s & m & e & E & D).
  unfold F2R. rewrite E. rewrite div_spec in E.
  destruct (SFdiv_error _ _ _ _ _ E) as [B NZ]. split; [|exact NZ].
  eapply Rle_trans; [exact B|apply half_ulp_normal, D].
Qed.

Lemma fadd_error (x y : float) :
  is_normal (x + y) = true ->
  Rabs (F2R (x + y) - (F2R x + F2R y)) <= u64 * Rabs (F2R (x + y)).
Proof.
  intros N. destruct (is_normal_spec _ N) as (s & m & e & E & D).
  unfold F2R. rewrite E. rewrite add_spec in E.
  eapply Rle_trans; [apply SFadd_error, E|apply half_ulp_normal, D].
Qed.

Lemma finite_is_finite (x : float) (s : bool) (m : positive) (e : Z) :
  Prim2SF x = S754_finite s m e -> is_finite x = true.
Proof.
  intros E. unfold is_finite, is_nan, is_infinity.
  rewrite !eqb_spec, abs_spec, E.
  cbn [SFabs]. change (Prim2SF infinity) with (S754_infinity false).
  unfold SFeqb. cbn [SFcompare]. rewrite Z.compare_refl, Pos.compare_cont_refl.
  destruct s; reflexivity.
Qed.

Lemma is_normal_finite (x : float) : is_normal x = true -> is_finite x = true.
Proof.
  intros N. destruct (is_normal_spec _ N) as (s & m & e & E & _).
  exact (finite_is_finite x s m e E).
Qed.

(** ** Multiplying by one *)

Lemma SFmul_one (x : spec_float) :
  valid_binary x = true -> SF64mul x (Prim2SF 1) = x.
Proof.
  change (Prim2SF 1) with (S754_finite false 4503599627370496 (-52)).
  destruct x as [s|s| |s m e]; unfold SF64mul; cbn [SFmul];
    rewrite ?xorb_false_r; try reflexivity.
  cbn [SpecFloat.valid_binary]. unfold bounded, canonical_mantissa.
  intros H. apply andb_prop in H. destruct H as [C B].
  apply Z.eqb_eq in C.
  rewrite Pos.mul_comm. cbn [Pos.mul].
  unfold binary_round_aux, shr_fexp.
  cbn [Zdigits2 digits2_pos].
  rewrite !Pos2Z.inj_succ.
  replace (fexp prec emax _) with e.
  2:{ rewrite <- C at 1. f_equal. lia. }
  replace (e - (e + -52))%Z with 52%Z by lia.
  cbn [shr shr_record_of_loc SpecFloat.iter_pos shr_1 orb fst snd shr_m
       loc_of_shr_record round_nearest_even Zdigits2].
  replace (e + -52 + 52)%Z with e by lia.
  rewrite C, Z.sub_diag. cbn [shr shr_record_of_loc shr_m].
  rewrite B. reflexivity.
Qed.

Lemma fmul_one (x : float) : (x * 1)%float = x.
Proof.
  apply Prim2SF_inj. rewrite mul_spec. apply SFmul_one, Prim2SF_valid.
Qed.

End Rounding.

(** * Agreement within a tolerance *)

Module Tolerance.
Import Rounding.

Local Open Scope R_scope.

(** [x] and [y] agree within the relative tolerance [tol]: they compare
    equal, or both are finite and [|x - y| <= tol * max(|x|, |y|)].  This is
    the test of Python's [math.isclose]; an infinity or a NaN is close only
    to what it is equal to. *)
Definition within_tolerance (tol : R) (x y : float) : Prop :=
  (x =? y)%float = true \/
  (is_finite x = true /\ is_finite y = true /\
   Rabs (F2R x - F2R y) <= tol * Rmax (Rabs (F2R x)) (Rabs (F2R y))).

Lemma Rabs_le_inv (a b : R) : Rabs a <= b -> - b <= a <= b.
Proof. unfold Rabs. destruct (Rcase_abs a); lra. Qed.

Lemma u64_pos : 0 < u64.
Proof. apply bpow_gt_0. Qed.

Lemma bpow_4 : bpow 4 = 16.
Proof. unfold bpow, powerRZ. simpl. lra. Qed.

Lemma u64_small : u64 <= / 16.
Proof.
  assert (bpow (-4) = / 16) as <-.
  { assert (bpow (-4) * bpow 4 = 1) as H by (rewrite <- bpow_add; reflexivity).
    rewrite bpow_4 in H. lra. }
  apply bpow_le. lia.
Qed.

Lemma four_u64 : bpow (-51) = 4 * u64.
Proof.
  unfold u64. replace (-51)%Z with (2 + -53)%Z by lia. rewrite bpow_add.
  f_equal. unfold bpow, powerRZ. simpl. lra.
Qed.

Lemma eight_u64 : bpow (-50) = 8 * u64.
Proof.
  unfold u64. replace (-50)%Z with (3 + -53)%Z by lia. rewrite bpow_add.
  f_equal. unfold bpow, powerRZ. simpl. lra.
Qed.

(** A normal quotient has a finite numerator. *)
Lemma fdiv_normal_numerator (x y : float) :
  is_normal (x / y) = true -> is_finite x = true.
Proof.
  intros N. destruct (is_normal_spec _ N) as (s & m & e & E & _).
  rewrite div_spec in E. unfold SF64div in E.
  destruct (Prim2SF x) as [sx|sx| |sx mx ex] eqn:Ex;
    [| | |exact (finite_is_finite x sx mx ex Ex)];
    destruct (Prim2SF y) as [sy|sy| |sy my ey]; discriminate E.
Qed.

(** Dividing and multiplying back: two roundings, each of relative error at
    most [u64]. *)
Lemma div_mul_back (p d q : float) :
  is_normal (p / d) = true -> is_normal q = true ->
  Rabs (F2R q - F2R (p / d) * F2R d) <= u64 * Rabs (F2R q) ->
  within_tolerance (bpow (-51)) q p /\ within_tolerance (bpow (-51)) p q.
Proof.
  intros Nx Nq Bq.
  pose proof (is_normal_finite q Nq) as Fq.
  pose proof (fdiv_normal_numerator p d Nx) as Fp.
  cut (Rabs (F2R q - F2R p) <= bpow (-51) * Rmax (Rabs (F2R q)) (Rabs (F2R p))).
  { intros B. split; right; (split; [assumption|split; [assumption|]]);
      [exact B|].
    rewrite Rmax_comm, <- Rabs_Ropp.
    replace (- (F2R p - F2R q)) with (F2R q - F2R p) by ring. exact B. }
  destruct (fdiv_error p d Nx) as [Bx NZ].
  set (Q := F2R q) in *. set (X := F2R (p / d)) in *.
  set (P := F2R p) in *. set (D := F2R d) in *.
  assert (Bd : Rabs (X * D - P) <= u64 * Rabs (X * D)).
  { replace (X * D - P) with ((X - P / D) * D) by (field; exact NZ).
    rewrite !Rabs_mult. pose proof (Rabs_pos D). nra. }
  pose proof u64_pos as Up. pose proof u64_small as Us.
  pose proof (Rabs_pos Q) as PQ. pose proof (Rabs_pos (X * D)) as PX.
  assert (BX : Rabs (X * D) <= Rabs Q + u64 * Rabs Q).
  { replace (X * D) with (Q - (Q - X * D)) by ring.
    eapply Rle_trans; [apply Rabs_triang|]. rewrite Rabs_Ropp. lra. }
  assert (B : Rabs (Q - P) <= 4 * u64 * Rabs Q).
  { replace (Q - P) with ((Q - X * D) + (X * D - P)) by ring.
    eapply Rle_trans; [apply Rabs_triang|].
    assert (u64 * Rabs (X * D) <= u64 * (Rabs Q + u64 * Rabs Q))
      by (apply Rmult_le_compat_l; lra).
    assert (u64 * (u64 * Rabs Q) <= / 16 * (u64 * Rabs Q))
      by (apply Rmult_le_compat_r; nra).
    nra. }
  rewrite four_u64.
  assert (4 * u64 * Rabs Q <= 4 * u64 * Rmax (Rabs Q) (Rabs P)).
  { apply Rmult_le_compat_l; [lra|apply Rmax_l]. }
  lra.
Qed.

End Tolerance.

(** * Re-substituting the solved value *)

Section Resubstitution.
Import Rounding Tolerance.
Local Open Scope R_scope.

(** C7 as stated fails when the quotient overflows: with [b = 2^1000],
    [c = 1] and [d = 2^-1000] (one slot missing, divisor nonzero, every
    input finite) the solved value is [+infinity]; re-substituted, [a * d] is
    [+infinity] while [b * c] is [2^1000], and no tolerance relates them. *)
Lemma resubstitution_overflow :
  none_count [None; Some 0x1p+1000%float; Some 1%float; Some 0x1p-1000%float] = 1%Z /\
  ne0 0x1p-1000 = true /\
  result (solve_proportion None (Some 0x1p+1000%float) (Some 1%float)
            (Some 0x1p-1000%float)) = inr infinity /\
  (infinity * 0x1p-1000)%float = infinity /\
  (0x1p+1000 * 1)%float = 0x1p+1000%float /\
  (forall tol : R,
     ~ within_tolerance tol (infinity * 0x1p-1000)%float (0x1p+1000 * 1)%float).
Proof.
  do 5 (split; [reflexivity|]).
  intros tol [H|[H _]]; vm_compute in H; discriminate H.
Qed.

(** C7, amended: with exactly one slot missing and a nonzero divisor, when
    the solved value and the product it is re-substituted in are normal
    binary64 numbers (no overflow, no underflow), the two cross products
    [a * d] and [b * c] agree within the relative tolerance [2^-51] (two
    machine epsilons). *)
Theorem solve_proportion_resubstitution :
  (forall b c d x : float,
     result (solve_proportion None (Some b) (Some c) (Some d)) = inr x ->
     is_normal x = true -> is_normal (x * d) = true ->
     within_tolerance (bpow (-51)) (x * d)%float (b * c)%float) /\
  (forall a c d x : float,
     result (solve_proportion (Some a) None (Some c) (Some d)) = inr x ->
     is_normal x = true -> is_normal (x * c) = true ->
     within_tolerance (bpow (-51)) (a * d)%float (x * c)%float) /\
  (forall a b d x : float,
     result (solve_proportion (Some a) (Some b) None (Some d)) = inr x ->
     is_normal x = true -> is_normal (b * x) = true ->
     within_tolerance (bpow (-51)) (a * d)%float (b * x)%float) /\
  (forall a b c x : float,
     result (solve_proportion (Some a) (Some b) (Some c) None) = inr x ->
     is_normal x = true -> is_normal (a * x) = true ->
     within_tolerance (bpow (-51)) (a * x)%float (b * c)%float).
Proof.
  assert (swap : forall y x : float, is_normal (y * x) = true ->
            Rabs (F2R (y * x) - F2R x * F2R y) <= u64 * Rabs (F2R (y * x))).
  { intros y x N. rewrite (Rmult_comm (F2R x)). apply fmul_error, N. }
  split; [|split; [|split]].
  - intros b c d x H Nx Nq. rewrite solve_for_a in H.
    apply solved_result in H. subst x.
    apply (div_mul_back (b * c) d _ Nx Nq), fmul_error, Nq.
  - intros a c d x H Nx Nq. rewrite solve_for_b in H.
    apply solved_result in H. subst x.
    apply (div_mul_back (a * d) c _ Nx Nq), fmul_error, Nq.
  - intros a b d x H Nx Nq. rewrite solve_for_c in H.
    apply solved_result in H. subst x.
    apply (div_mul_back (a * d) b _ Nx Nq), swap, Nq.
  - intros a b c x H Nx Nq. rewrite solve_for_d in H.
    apply solved_result in H. subst x.
    apply (div_mul_back (b * c) a _ Nx Nq), swap, Nq.
Qed.

Lemma solve_proportion_resubstitution_witness :
  within_tolerance (bpow (-51)) (3 * 8)%float (4 * 6)%float.
Proof.
  exact (proj1 solve_proportion_resubstitution 4%float 6%float 8%float 3%float
           eq_refl eq_refl eq_refl).
Defined.

(** The example of the specification: [solve_proportion(None, 4, 6, 8)] is
    [3.0], and [3 * 8 == 4 * 6]. *)
Example resubstitution_example :
  result (solve_proportion None (Some 4%float) (Some 6%float) (Some 8%float))
  = inr 3%float /\ (3 * 8 =? 4 * 6)%float = true.
Proof. split; reflexivity. Qed.

End Resubstitution.

(** * Scaling by one, and additivity *)

Section Linearity.
Import Rounding Tolerance.
Local Open Scope R_scope.

(** C8 as stated fails twice.  Additivity breaks on overflow: with
    [v1 = v2 = 2^1023] and [r = 0.5] the sum [v1 + v2] is [+infinity], so the
    left side is [+infinity], while the right side is
    [2^1022 + 2^1022 = 2^1023]; no tolerance relates them.  And the identity
    [scale_by_ratio(v, 1) == v] fails for NaN, which is not equal to itself. *)
Lemma scale_by_ratio_not_additive :
  result (scale_by_ratio (0x1p+1023 + 0x1p+1023) 0.5) = inr infinity /\
  result (scale_by_ratio 0x1p+1023 0.5) = inr 0x1p+1022%float /\
  (0x1p+1022 + 0x1p+1022)%float = 0x1p+1023%float /\
  (forall tol : R, ~ within_tolerance tol infinity 0x1p+1023) /\
  result (scale_by_ratio nan 1) = inr nan /\
  (nan =? nan)%float = false.
Proof.
  do 3 (split; [reflexivity|]).
  split; [|split; reflexivity].
  intros tol [H|[H _]]; vm_compute in H; discriminate H.
Qed.

(** Additivity also breaks without any overflow, through cancellation: with
    [v1 = 2^53 + 2], [v2 = -2^53] and [r] the double nearest to [0.1], every
    intermediate result is a normal number, the left side is the double
    nearest to [0.2] and the right side is [0.25]; they are not within a
    relative tolerance of one tenth of each other.  A tolerance for
    additivity has to be relative to the terms, not to the result. *)
Example additivity_cancellation :
  let v1 := 9007199254740994%float in
  let v2 := (-9007199254740992)%float in
  let r := 0x1.999999999999ap-4%float in
  is_normal (v1 + v2) = true /\ is_normal ((v1 + v2) * r) = true /\
  is_normal (v1 * r) = true /\ is_normal (v2 * r) = true /\
  is_normal (v1 * r + v2 * r) = true /\
  ((v1 + v2) * r)%float = 0x1.999999999999ap-3%float /\
  (v1 * r + v2 * r)%float = 0.25%float /\
  ~ within_tolerance (/ 10) ((v1 + v2) * r)%float (v1 * r + v2 * r)%float.
Proof.
  cbv zeta. do 7 (split; [reflexivity|]).
  intros [H|(_ & _ & H)]; [vm_compute in H; discriminate H|].
  unfold F2R in H.
  change (Prim2SF _) with (S754_finite false 7205759403792794 (-55)) in H at 1.
  change (Prim2SF _) with (S754_finite false 4503599627370496 (-54)) in H at 1.
  change (Prim2SF _) with (S754_finite false 7205759403792794 (-55)) in H at 1.
  change (Prim2SF _) with (S754_finite false 4503599627370496 (-54)) in H at 1.
  cbn [SF2R sgn] in H.
  assert (E : bpow (-54) = 2 * bpow (-55)).
  { replace (-54)%Z with (-55 + 1)%Z by lia. apply bpow_succ. }
  rewrite E in H. pose proof (bpow_gt_0 (-55)) as P.
  set (t := bpow (-55)) in *.
  assert (Rmax (Rabs (1 * (7205759403792794 * t)))
               (Rabs (1 * (4503599627370496 * (2 * t)))) <= 9007199254740992 * t).
  { apply Rmax_lub; rewrite Rabs_pos_eq; lra. }
  apply Rabs_le_inv in H. lra.
Qed.

(** The sum of the five rounding errors, against the magnitude of the terms. *)
Lemma additivity_error (S A T1 T2 B V1 V2 r : R) :
  Rabs (S - (V1 + V2)) <= u64 * Rabs S ->
  Rabs (A - S * r) <= u64 * Rabs A ->
  Rabs (T1 - V1 * r) <= u64 * Rabs T1 ->
  Rabs (T2 - V2 * r) <= u64 * Rabs T2 ->
  Rabs (B - (T1 + T2)) <= u64 * Rabs B ->
  Rabs (A - B) <= 8 * u64 * ((Rabs V1 + Rabs V2) * Rabs r).
Proof.
  intros HS HA H1 H2 HB.
  pose proof u64_pos as Up. pose proof u64_small as Us.
  assert (grow : forall x y e : R, Rabs (x - y) <= u64 * Rabs x ->
            Rabs y <= e -> Rabs x <= 16 / 15 * e).
  { intros x y e Hx Hy.
    assert (Rabs x <= Rabs y + u64 * Rabs x).
    { replace x with (y + (x - y)) at 1 by ring.
      eapply Rle_trans; [apply Rabs_triang|]. lra. }
    pose proof (Rabs_pos x).
    assert (u64 * Rabs x <= / 16 * Rabs x) by (apply Rmult_le_compat_r; lra).
    lra. }
  set (W := (Rabs V1 + Rabs V2) * Rabs r).
  pose proof (Rabs_pos r) as Pr. pose proof (Rabs_pos V1) as P1.
  pose proof (Rabs_pos V2) as P2.
  assert (0 <= W) as PW by (unfold W; nra).
  assert (BS : Rabs S <= 16 / 15 * (Rabs V1 + Rabs V2)).
  { apply (grow S (V1 + V2)); [exact HS|apply Rabs_triang]. }
  assert (BSr : Rabs (S * r) <= 16 / 15 * W).
  { rewrite Rabs_mult. unfold W. nra. }
  assert (BA : Rabs A <= 16 / 15 * (16 / 15 * W)).
  { apply (grow A (S * r)); [exact HA|exact BSr]. }
  assert (B1 : Rabs T1 <= 16 / 15 * (Rabs V1 * Rabs r)).
  { apply (grow T1 (V1 * r)); [exact H1|rewrite Rabs_mult; lra]. }
  assert (B2 : Rabs T2 <= 16 / 15 * (Rabs V2 * Rabs r)).
  { apply (grow T2 (V2 * r)); [exact H2|rewrite Rabs_mult; lra]. }
  assert (BT : Rabs (T1 + T2) <= 16 / 15 * W).
  { eapply Rle_trans; [apply Rabs_triang|]. unfold W. lra. }
  assert (BB : Rabs B <= 16 / 15 * (16 / 15 * W)).
  { apply (grow B (T1 + T2)); [exact HB|exact BT]. }
  assert (ES : Rabs (S * r - (V1 + V2) * r) <= u64 * (16 / 15 * W)).
  { replace (S * r - (V1 + V2) * r) with ((S - (V1 + V2)) * r) by ring.
    rewrite Rabs_mult.
    apply Rle_trans with (u64 * Rabs S * Rabs r);
      [apply Rmult_le_compat_r; assumption|].
    rewrite Rmult_assoc. apply Rmult_le_compat_l; [lra|].
    rewrite <- Rabs_mult. exact BSr. }
  assert (mono : forall x e : R, x <= e -> u64 * x <= u64 * e)
    by (intros x e Hx; apply Rmult_le_compat_l; lra).
  apply mono in BA, B1, B2, BB.
  assert (HA' := Rle_trans _ _ _ HA BA). assert (H1' := Rle_trans _ _ _ H1 B1).
  assert (H2' := Rle_trans _ _ _ H2 B2). assert (HB' := Rle_trans _ _ _ HB BB).
  apply Rabs_le_inv in HA', H1', H2', HB', ES.
  assert (u64 * (16 / 15 * (16 / 15 * W)) <= 5 / 4 * (u64 * W)) by nra.
  assert (0 <= u64 * W) by nra.
  unfold W in *. apply Rabs_le. split; lra.
Qed.

(** C8, amended: scaling by a ratio of one returns the value itself, for
    every double, and the result compares equal to the value unless it is
    NaN; and [scale_by_ratio] is additive in its first argument up to
    rounding: when the sum of the values, the three scaled results and the
    sum of the two scaled parts are normal binary64 numbers (no overflow, no
    underflow), the two sides differ by at most
    [2^-50 * (|v1| + |v2|) * |r|]. *)
Theorem scale_by_ratio_identity_and_additivity :
  (forall v : float, result (scale_by_ratio v 1) = inr v) /\
  (forall v : float, is_nan v = false ->
     exists w, result (scale_by_ratio v 1) = inr w /\ (w =? v)%float = true) /\
  (forall v1 v2 r lhs s1 s2 : float,
     result (scale_by_ratio (v1 + v2) r) = inr lhs ->
     result (scale_by_ratio v1 r) = inr s1 ->
     result (scale_by_ratio v2 r) = inr s2 ->
     is_normal (v1 + v2) = true -> is_normal lhs = true ->
     is_normal s1 = true -> is_normal s2 = true -> is_normal (s1 + s2) = true ->
     Rabs (F2R lhs - F2R (s1 + s2))
     <= bpow (-50) * ((Rabs (F2R v1) + Rabs (F2R v2)) * Rabs (F2R r))).
Proof.
  assert (I : forall v : float, result (scale_by_ratio v 1) = inr v).
  { intros v. cbn. rewrite fmul_one. reflexivity. }
  split; [exact I|]. split.
  - intros v N. exists v. split; [apply I|].
    unfold is_nan in N. apply negb_false_iff in N. exact N.
  - intros v1 v2 r lhs s1 s2 HL H1 H2 NS NL N1 N2 NB.
    cbn in HL, H1, H2. injection HL as <-. injection H1 as <-. injection H2 as <-.
    rewrite eight_u64.
    apply (additivity_error (F2R (v1 + v2)) (F2R ((v1 + v2) * r))
             (F2R (v1 * r)) (F2R (v2 * r)) (F2R (v1 * r + v2 * r))
             (F2R v1) (F2R v2) (F2R r)).
    + apply fadd_error, NS.
    + apply fmul_error, NL.
    + apply fmul_error, N1.
    + apply fmul_error, N2.
    + apply fadd_error, NB.
Qed.

Lemma scale_by_ratio_identity_and_additivity_witness :
  Rabs (F2R 7.5 - F2R (4.5 + 3)) <= bpow (-50) * ((Rabs (F2R 3) + Rabs (F2R 2)) * Rabs (F2R 1.5)).
Proof.
  exact (proj2 (proj2 scale_by_ratio_identity_and_additivity)
           3%float 2%float 1.5%float 7.5%float 4.5%float 3%float
           eq_refl eq_refl eq_refl eq_refl eq_refl eq_refl eq_refl eq_refl).
Defined.

End Linearity.

(** * More about binary64 arithmetic: signs, symmetry, zeros *)

Module FloatAlgebra.
Import Rounding.

(** *** Rounding keeps the sign *)

Lemma shr_1_nonneg (mrs : shr_record) :
  (0 <= shr_m mrs)%Z -> (0 <= shr_m (shr_1 mrs))%Z.
Proof.
  destruct mrs as [m r s]. destruct m as [|[p|p|]|p]; cbn; lia.
Qed.

Lemma iter_shr_1_nonneg (n : positive) :
  forall mrs, (0 <= shr_m mrs)%Z -> (0 <= shr_m (SpecFloat.iter_pos shr_1 n mrs))%Z.
Proof.
  induction n as [n IH|n IH|]; intros mrs H; cbn [SpecFloat.iter_pos].
  - apply IH, IH, shr_1_nonneg, H.
  - apply IH, IH, H.
  - apply shr_1_nonneg, H.
Qed.

Lemma shr_nonneg (mrs : shr_record) (e n : Z) :
  (0 <= shr_m mrs)%Z -> (0 <= shr_m (fst (shr mrs e n)))%Z.
Proof.
  intros H. destruct n as [|n|n]; cbn [shr fst]; try exact H.
  apply iter_shr_1_nonneg, H.
Qed.

Lemma round_nearest_even_nonneg (m : Z) (l : location) :
  (0 <= m)%Z -> (0 <= round_nearest_even m l)%Z.
Proof.
  intros H. destruct l as [|[| |]]; cbn [round_nearest_even];
    try destruct (Z.even m); lia.
Qed.

(** A rounded value is a zero, a finite number or an infinity of the sign it
    was given: never a NaN. *)
Definition has_sign (sx : bool) (x : spec_float) : Prop :=
  match x with
  | S754_zero s | S754_infinity s | S754_finite s _ _ => s = sx
  | S754_nan => False
  end.

Lemma binary_round_aux_sign (sx : bool) (mx ex : Z) (lx : location) :
  (0 <= mx)%Z -> has_sign sx (binary_round_aux prec emax sx mx ex lx).
Proof.
  intros H. unfold binary_round_aux, shr_fexp.
  pose proof (shr_nonneg (shr_record_of_loc mx lx) ex
                (fexp prec emax (Zdigits2 mx + ex) - ex)) as N1.
  rewrite shr_m_of_loc in N1. specialize (N1 H).
  destruct (shr (shr_record_of_loc mx lx) ex _) as [mrs1 e1]. cbn [fst] in N1.
  pose proof (round_nearest_even_nonneg (shr_m mrs1) (loc_of_shr_record mrs1) N1) as N2.
  pose proof (shr_nonneg (shr_record_of_loc
                            (round_nearest_even (shr_m mrs1) (loc_of_shr_record mrs1))
                            loc_Exact) e1
                (fexp prec emax
                   (Zdigits2 (round_nearest_even (shr_m mrs1) (loc_of_shr_record mrs1))
                    + e1) - e1)) as N3.
  rewrite shr_m_of_loc in N3. specialize (N3 N2).
  destruct (shr (shr_record_of_loc
                   (round_nearest_even (shr_m mrs1) (loc_of_shr_record mrs1))
                   loc_Exact) e1 _) as [mrs2 e2]. cbn [fst] in N3.
  destruct (shr_m mrs2) as [|m2|m2]; [reflexivity| |lia].
  destruct (Z.leb e2 (emax - prec)); reflexivity.
Qed.

(** The rounding does not look at the sign. *)
Lemma binary_round_aux_opp (sx : bool) (mx ex : Z) (lx : location) :
  binary_round_aux prec emax (negb sx) mx ex lx
  = SFopp (binary_round_aux prec emax sx mx ex lx).
Proof.
  unfold binary_round_aux.
  destruct (shr_fexp prec emax mx ex lx) as [mrs1 e1].
  destruct (shr_fexp prec emax _ e1 loc_Exact) as [mrs2 e2].
  destruct (shr_m mrs2); try reflexivity.
  destruct (Z.leb e2 (emax - prec)); reflexivity.
Qed.

(** *** Multiplication and division are odd and multiplication commutes *)

Lemma SFmul_opp_l (x y : spec_float) :
  SF64mul (SFopp x) y = SFopp (SF64mul x y).
Proof.
  unfold SF64mul.
  destruct x as [sx|sx| |sx mx ex], y as [sy|sy| |sy my ey]; cbn [SFmul SFopp];
    rewrite <- ?negb_xorb_l; try reflexivity.
  apply binary_round_aux_opp.
Qed.

Lemma SFdiv_opp_l (x y : spec_float) :
  SF64div (SFopp x) y = SFopp (SF64div x y).
Proof.
  unfold SF64div.
  destruct x as [sx|sx| |sx mx ex], y as [sy|sy| |sy my ey]; cbn [SFdiv SFopp];
    rewrite <- ?negb_xorb_l; try reflexivity.
  destruct (SFdiv_core_binary prec emax (Zpos mx) ex (Zpos my) ey) as [[mz ez] lz].
  apply binary_round_aux_opp.
Qed.

Lemma SFmul_comm (x y : spec_float) : SF64mul x y = SF64mul y x.
Proof.
  unfold SF64mul.
  destruct x as [sx|sx| |sx mx ex], y as [sy|sy| |sy my ey]; cbn [SFmul];
    rewrite ?(xorb_comm sx sy); try reflexivity.
  rewrite (Pos.mul_comm mx my), (Z.add_comm ex ey). reflexivity.
Qed.

Lemma fmul_opp_l (x y : float) : (- x * y)%float = (- (x * y))%float.
Proof.
  apply Prim2SF_inj. rewrite mul_spec, !opp_spec, mul_spec. apply SFmul_opp_l.
Qed.

Lemma fdiv_opp_l (x y : float) : (- x / y)%float = (- (x / y))%float.
Proof.
  apply Prim2SF_inj. rewrite div_spec, !opp_spec, div_spec. apply SFdiv_opp_l.
Qed.

Lemma fmul_comm (x y : float) : (x * y)%float = (y * x)%float.
Proof.
  apply Prim2SF_inj. rewrite !mul_spec. apply SFmul_comm.
Qed.

End FloatAlgebra.

(** * Further properties of the calculation core *)

Module CoreFacts.
Import Rounding Tolerance FloatAlgebra.

(** *** What the comparisons of the assertions accept *)

Definition nonneg_sf (x : spec_float) : bool :=
  match x with
  | S754_zero _ => true
  | S754_infinity s | S754_finite s _ _ => negb s
  | S754_nan => false
  end.

Definition pos_sf (x : spec_float) : bool :=
  match x with
  | S754_infinity s | S754_finite s _ _ => negb s
  | _ => false
  end.

Lemma ge0_spec (x : float) : ge0 x = nonneg_sf (Prim2SF x).
Proof.
  unfold ge0. rewrite leb_spec. change (Prim2SF 0) with (S754_zero false).
  destruct (Prim2SF x) as [s|s| |s m e]; try destruct s; reflexivity.
Qed.

Lemma gt0_spec (x : float) : gt0 x = pos_sf (Prim2SF x).
Proof.
  unfold gt0. rewrite ltb_spec. change (Prim2SF 0) with (S754_zero false).
  destruct (Prim2SF x) as [s|s| |s m e]; try destruct s; reflexivity.
Qed.

Lemma is_infinity_spec (x : float) :
  is_infinity x = match Prim2SF x with S754_infinity _ => true | _ => false end.
Proof.
  unfold is_infinity. rewrite eqb_spec, abs_spec.
  change (Prim2SF infinity) with (S754_infinity false).
  destruct (Prim2SF x) as [s|s| |s m e]; try destruct s; reflexivity.
Qed.

Lemma is_finite_spec (x : float) :
  is_finite x = match Prim2SF x with
                | S754_zero _ | S754_finite _ _ _ => true
                | _ => false
                end.
Proof.
  unfold is_finite. rewrite is_infinity_spec, FloatFacts.is_nan_spec.
  destruct (Prim2SF x); reflexivity.
Qed.

(** A non-negative number times a positive finite number is non-negative
    (possibly [+infinity] by overflow, or a zero). *)
Lemma fmul_nonneg (w s : float) :
  ge0 w = true -> gt0 s = true -> is_infinity s = false -> ge0 (w * s) = true.
Proof.
  rewrite !ge0_spec, gt0_spec, is_infinity_spec, mul_spec. unfold SF64mul.
  destruct (Prim2SF w) as [sw|sw| |sw mw ew], (Prim2SF s) as [ss|ss| |ss ms es];
    cbn [nonneg_sf pos_sf SFmul]; try discriminate; try reflexivity.
  - intros H1 H2 _. apply negb_true_iff in H1, H2. subst. reflexivity.
  - intros H1 H2 _. apply negb_true_iff in H1, H2. subst.
    pose proof (binary_round_aux_sign (xorb false false) (Zpos (mw * ms)) (ew + es)
                  loc_Exact ltac:(lia)) as S.
    destruct (binary_round_aux prec emax _ _ _ _) as [sz|sz| |sz mz ez];
      cbn in S; try contradiction; subst; reflexivity.
Qed.

(** *** Reading a successful call backwards *)

Lemma percent_of_inv (part whole p : float) :
  result (percent_of part whole) = inr p ->
  ne0 whole = true /\ p = ((part / whole) * 100)%float.
Proof.
  unfold percent_of. destruct (ne0 whole) eqn:E; [|discriminate].
  rewrite bind_assert_true, (fdiv_ne0 _ _ E). cbn. intros [= <-]. auto.
Qed.

Lemma direct_k_inv (x y k : float) :
  result (direct_k x y) = inr k -> ne0 x = true /\ k = (y / x)%float.
Proof.
  unfold direct_k. destruct (ne0 x) eqn:E; [|discriminate].
  rewrite bind_assert_true, (fdiv_ne0 _ _ E). cbn. intros [= <-]. auto.
Qed.

Lemma resize_dimensions_inv (w h s w' h' : float) :
  result (resize_dimensions w h s) = inr (w', h') ->
  ge0 w = true /\ ge0 h = true /\ gt0 s = true /\
  w' = (w * s)%float /\ h' = (h * s)%float.
Proof.
  unfold resize_dimensions.
  destruct (ge0 w); [|discriminate]. destruct (ge0 h); [|discriminate].
  destruct (gt0 s); [|discriminate]. cbn. intros [= <- <-]. auto.
Qed.

Lemma resize_dimensions_ok (w h s : float) :
  ge0 w = true -> ge0 h = true -> gt0 s = true ->
  result (resize_dimensions w h s) = inr ((w * s)%float, (h * s)%float).
Proof.
  intros Hw Hh Hs. unfold resize_dimensions. rewrite Hw, Hh, Hs. reflexivity.
Qed.

End CoreFacts.

(** * Accuracy of the formulas *)

Module Accuracy.
Import Rounding Tolerance.
Local Open Scope R_scope.

(** Two roundings in a row, each of relative error at most [u64], stay
    within [2^-51] of the exact value, relative to the computed one. *)
Lemma two_roundings (A B C : R) :
  Rabs (A - B) <= u64 * Rabs A -> Rabs (B - C) <= u64 * Rabs B ->
  Rabs (A - C) <= bpow (-51) * Rabs A.
Proof.
  intros H1 H2. pose proof u64_pos as Up. pose proof u64_small as Us.
  pose proof (Rabs_pos A) as PA. pose proof (Rabs_pos B) as PB.
  assert (BB : Rabs B <= Rabs A + u64 * Rabs A).
  { replace B with (A - (A - B)) at 1 by ring.
    eapply Rle_trans; [apply Rabs_triang|]. rewrite Rabs_Ropp. lra. }
  rewrite four_u64.
  replace (A - C) with ((A - B) + (B - C)) by ring.
  eapply Rle_trans; [apply Rabs_triang|].
  assert (u64 * Rabs B <= u64 * (Rabs A + u64 * Rabs A))
    by (apply Rmult_le_compat_l; lra).
  assert (u64 * (u64 * Rabs A) <= / 16 * (u64 * Rabs A))
    by (apply Rmult_le_compat_r; nra).
  nra.
Qed.

Lemma F2R_100 : F2R 100 = 100.
Proof.
  unfold F2R. change (Prim2SF 100) with (S754_finite false 7036874417766400 (-46)).
  cbn [SF2R sgn].
  assert (H : bpow (-46) * bpow 46 = 1) by (rewrite <- bpow_add; reflexivity).
  rewrite <- (IZR_pow2 46) in H by lia.
  change (2 ^ 46)%Z with 70368744177664%Z in H. lra.
Qed.

(** A product and then a quotient: [(x * y) / z] against the exact value. *)
Lemma mul_div_accuracy (x y z : float) :
  is_normal (x * y) = true -> is_normal ((x * y) / z) = true ->
  Rabs (F2R ((x * y) / z) - F2R x * F2R y / F2R z)
  <= bpow (-51) * Rabs (F2R ((x * y) / z)).
Proof.
  intros Np Nq.
  pose proof (fmul_error x y Np) as Bp.
  destruct (fdiv_error (x * y) z Nq) as [Bq NZ].
  apply (two_roundings _ (F2R (x * y) / F2R z)); [exact Bq|].
  replace (F2R (x * y) / F2R z - F2R x * F2R y / F2R z)
    with ((F2R (x * y) - F2R x * F2R y) * / F2R z) by (field; exact NZ).
  unfold Rdiv. rewrite !Rabs_mult, <- Rmult_assoc.
  apply Rmult_le_compat_r; [apply Rabs_pos|exact Bp].
Qed.

(** A quotient and then a product by one hundred. *)
Lemma div_mul100_accuracy (x y : float) :
  is_normal (x / y) = true -> is_normal ((x / y) * 100) = true ->
  Rabs (F2R ((x / y) * 100) - 100 * (F2R x / F2R y))
  <= bpow (-51) * Rabs (F2R ((x / y) * 100)).
Proof.
  intros Nq Np.
  destruct (fdiv_error x y Nq) as [Bq NZ].
  pose proof (fmul_error (x / y) 100 Np) as Bp. rewrite F2R_100 in Bp.
  apply (two_roundings _ (F2R (x / y) * 100)); [exact Bp|].
  replace (F2R (x / y) * 100 - 100 * (F2R x / F2R y))
    with ((F2R (x / y) - F2R x / F2R y) * 100) by ring.
  rewrite !Rabs_mult, <- Rmult_assoc.
  apply Rmult_le_compat_r; [apply Rabs_pos|exact Bq].
Qed.

End Accuracy.

(** * Negation and zeros *)

Module Negation.
Import Rounding FloatAlgebra CoreFacts.

Lemma SFdiv_opp_r (x y : spec_float) :
  SF64div x (SFopp y) = SFopp (SF64div x y).
Proof.
  unfold SF64div.
  destruct x as [sx|sx| |sx mx ex], y as [sy|sy| |sy my ey]; cbn [SFdiv SFopp];
    rewrite <- ?negb_xorb_r; try reflexivity.
  destruct (SFdiv_core_binary prec emax (Zpos mx) ex (Zpos my) ey) as [[mz ez] lz].
  apply binary_round_aux_opp.
Qed.

Lemma fmul_opp_r (x y : float) : (x * - y)%float = (- (x * y))%float.
Proof. rewrite (fmul_comm x (- y)), fmul_opp_l, (fmul_comm y x). reflexivity. Qed.

Lemma fdiv_opp_r (x y : float) : (x / - y)%float = (- (x / y))%float.
Proof.
  apply Prim2SF_inj. rewrite div_spec, !opp_spec, div_spec. apply SFdiv_opp_r.
Qed.

Lemma fopp_involutive (x : float) : (- - x)%float = x.
Proof.
  apply Prim2SF_inj. rewrite !opp_spec.
  destruct (Prim2SF x) as [s|s| |s m e]; cbn [SFopp]; rewrite ?negb_involutive;
    reflexivity.
Qed.

Lemma ne0_opp (x : float) : ne0 (- x) = ne0 x.
Proof.
  rewrite !FloatFacts.ne0_spec, opp_spec. destruct (Prim2SF x); reflexivity.
Qed.

(** [v * 0] is a zero when [v] is finite and NaN otherwise. *)
Lemma fmul_zero_r (v : float) :
  (v * 0 =? 0)%float = is_finite v /\ is_nan (v * 0) = negb (is_finite v).
Proof.
  rewrite FloatFacts.eqb_zero, FloatFacts.is_nan_spec, is_finite_spec, mul_spec.
  change (Prim2SF 0) with (S754_zero false). unfold SF64mul.
  destruct (Prim2SF v) as [s|s| |s m e]; split; reflexivity.
Qed.

(** [(0 / w) * 100] is a zero unless [w] is a zero or NaN. *)
Lemma zero_percent (w : float) :
  ne0 w = true -> ((0 / w) * 100 =? 0)%float = negb (is_nan w).
Proof.
  rewrite FloatFacts.ne0_spec, FloatFacts.eqb_zero, FloatFacts.is_nan_spec,
    mul_spec, div_spec.
  change (Prim2SF 0) with (S754_zero false).
  change (Prim2SF 100) with (S754_finite false 7036874417766400 (-46)).
  unfold SF64mul, SF64div.
  destruct (Prim2SF w) as [s|s| |s m e]; try discriminate; reflexivity.
Qed.

End Negation.

(** * Properties of the core beyond its contracts *)

Section CoreProperties.
Import Rounding Tolerance FloatAlgebra CoreFacts Accuracy Negation.
Local Open Scope R_scope.

(** X3: The dimensions returned by a resize with a finite scale are again valid
    dimensions (non-negative, possibly [+infinity]), so the result can be
    resized again by any positive scale.  With an infinite scale this fails:
    [0 * infinity] is NaN, which the next call rejects. *)
Theorem resize_dimensions_output_valid :
  (forall w h s w' h' : float,
     result (resize_dimensions w h s) = inr (w', h') -> is_infinity s = false ->
     ge0 w' = true /\ ge0 h' = true /\
     forall s2 : float, gt0 s2 = true ->
       result (resize_dimensions w' h' s2) = inr ((w' * s2)%float, (h' * s2)%float)) /\
  result (resize_dimensions 0 0 infinity) = inr (nan, nan) /\
  result (resize_dimensions nan nan 2) = inl (NegativeDimension "Width").
Proof.
  split; [|split; reflexivity].
  intros w h s w' h' H Hs.
  destruct (resize_dimensions_inv w h s w' h' H) as (Gw & Gh & Gs & -> & ->).
  pose proof (fmul_nonneg w s Gw Gs Hs) as Nw.
  pose proof (fmul_nonneg h s Gh Gs Hs) as Nh.
  split; [exact Nw|]. split; [exact Nh|].
  intros s2 G2. apply resize_dimensions_ok; assumption.
Qed.

Lemma resize_dimensions_output_valid_witness :
  ge0 200 = true /\ ge0 100 = true /\
  forall s2 : float, gt0 s2 = true ->
    result (resize_dimensions 200 100 s2) = inr ((200 * s2)%float, (100 * s2)%float).
Proof.
  exact (proj1 resize_dimensions_output_valid 100%float 50%float 2%float
           200%float 100%float eq_refl eq_refl).
Defined.

(** X4: Resizing by a scale of one returns the dimensions unchanged, bit for
    bit, for every valid width and height. *)
Theorem resize_dimensions_scale_one (w h : float) :
  ge0 w = true -> ge0 h = true ->
  result (resize_dimensions w h 1) = inr (w, h).
Proof.
  intros Hw Hh. rewrite (resize_dimensions_ok w h 1 Hw Hh eq_refl).
  rewrite !fmul_one. reflexivity.
Qed.

Lemma resize_dimensions_scale_one_witness :
  result (resize_dimensions 100 50 1) = inr (100%float, 50%float).
Proof.
  exact (resize_dimensions_scale_one 100 50 eq_refl eq_refl).
Defined.

(** X5: Scaling [x] by the constant [direct_k x y] gives [y] back, up to the two
    roundings: within the relative tolerance [2^-51] when the constant and
    the scaled value are normal numbers. *)
Theorem direct_k_scale_round_trip (x y k v : float) :
  result (direct_k x y) = inr k -> result (scale_by_ratio x k) = inr v ->
  is_normal k = true -> is_normal v = true ->
  within_tolerance (bpow (-51)) v y.
Proof.
  intros Hk Hv Nk Nv.
  destruct (direct_k_inv x y k Hk) as [_ ->].
  cbn in Hv. injection Hv as <-.
  apply (div_mul_back y x (x * (y / x)) Nk Nv).
  rewrite (Rmult_comm (F2R (y / x))). apply fmul_error, Nv.
Qed.

Lemma direct_k_scale_round_trip_witness :
  within_tolerance (bpow (-51)) 1250 1250.
Proof.
  exact (direct_k_scale_round_trip 1000 1250 1.25 1250
           eq_refl eq_refl eq_refl eq_refl).
Defined.

(** X6: [percent_of] is accurate: when the quotient and the percentage are
    normal numbers, the result is within the relative error [2^-51] of the
    exact value [100 * part / whole]. *)
Theorem percent_of_accuracy (part whole p : float) :
  result (percent_of part whole) = inr p ->
  is_normal (part / whole) = true -> is_normal p = true ->
  Rabs (F2R p - 100 * (F2R part / F2R whole)) <= bpow (-51) * Rabs (F2R p).
Proof.
  intros H Nq Np. destruct (percent_of_inv part whole p H) as [_ ->].
  apply div_mul100_accuracy; assumption.
Qed.

Lemma percent_of_accuracy_witness :
  Rabs (F2R 75 - 100 * (F2R 3 / F2R 4)) <= bpow (-51) * Rabs (F2R 75).
Proof.
  exact (percent_of_accuracy 3 4 75 eq_refl eq_refl eq_refl).
Defined.

(** X7: [solve_proportion] is accurate: in each branch, when the product and the
    solved value are normal numbers, the solved value is within the relative
    error [2^-51] of the exact value of the cross-multiplication formula. *)
Theorem solve_proportion_accuracy :
  (forall b c d x : float,
     result (solve_proportion None (Some b) (Some c) (Some d)) = inr x ->
     is_normal (b * c) = true -> is_normal x = true ->
     Rabs (F2R x - F2R b * F2R c / F2R d) <= bpow (-51) * Rabs (F2R x)) /\
  (forall a c d x : float,
     result (solve_proportion (Some a) None (Some c) (Some d)) = inr x ->
     is_normal (a * d) = true -> is_normal x = true ->
     Rabs (F2R x - F2R a * F2R d / F2R c) <= bpow (-51) * Rabs (F2R x)) /\
  (forall a b d x : float,
     result (solve_proportion (Some a) (Some b) None (Some d)) = inr x ->
     is_normal (a * d) = true -> is_normal x = true ->
     Rabs (F2R x - F2R a * F2R d / F2R b) <= bpow (-51) * Rabs (F2R x)) /\
  (forall a b c x : float,
     result (solve_proportion (Some a) (Some b) (Some c) None) = inr x ->
     is_normal (b * c) = true -> is_normal x = true ->
     Rabs (F2R x - F2R b * F2R c / F2R a) <= bpow (-51) * Rabs (F2R x)).
Proof.
  split; [|split; [|split]]; intros x1 x2 x3 x H Np Nx.
  - rewrite solve_for_a in H. apply solved_result in H. subst x.
    apply mul_div_accuracy; assumption.
  - rewrite solve_for_b in H. apply solved_result in H. subst x.
    apply mul_div_accuracy; assumption.
  - rewrite solve_for_c in H. apply solved_result in H. subst x.
    apply mul_div_accuracy; assumption.
  - rewrite solve_for_d in H. apply solved_result in H. subst x.
    apply mul_div_accuracy; assumption.
Qed.

Lemma solve_proportion_accuracy_witness :
  Rabs (F2R 6 - F2R 3 * F2R 2 / F2R 1) <= bpow (-51) * Rabs (F2R 6).
Proof.
  exact (proj2 (proj2 (proj2 solve_proportion_accuracy))
           1%float 3%float 2%float 6%float eq_refl eq_refl eq_refl).
Defined.

(** X8: [direct_k], [scale_by_ratio] and [resize_dimensions] round once: a
    normal result is within the relative error [2^-53] of the exact quotient
    or product of the arguments. *)
Theorem single_rounding_accuracy :
  (forall x y k : float, result (direct_k x y) = inr k -> is_normal k = true ->
     Rabs (F2R k - F2R y / F2R x) <= u64 * Rabs (F2R k)) /\
  (forall v r s : float, result (scale_by_ratio v r) = inr s -> is_normal s = true ->
     Rabs (F2R s - F2R v * F2R r) <= u64 * Rabs (F2R s)) /\
  (forall w h s w' h' : float,
     result (resize_dimensions w h s) = inr (w', h') ->
     (is_normal w' = true -> Rabs (F2R w' - F2R w * F2R s) <= u64 * Rabs (F2R w')) /\
     (is_normal h' = true -> Rabs (F2R h' - F2R h * F2R s) <= u64 * Rabs (F2R h'))).
Proof.
  split; [|split].
  - intros x y k H N. destruct (direct_k_inv x y k H) as [_ ->].
    apply (fdiv_error y x N).
  - intros v r s H N. cbn in H. injection H as <-. apply fmul_error, N.
  - intros w h s w' h' H.
    destruct (resize_dimensions_inv w h s w' h' H) as (_ & _ & _ & -> & ->).
    split; intros N; apply fmul_error, N.
Qed.

Lemma single_rounding_accuracy_witness :
  Rabs (F2R 0x1.5555555555555p-2 - F2R 1 / F2R 3)
  <= u64 * Rabs (F2R 0x1.5555555555555p-2).
Proof.
  exact (proj1 single_rounding_accuracy 3%float 1%float 0x1.5555555555555p-2%float
           eq_refl eq_refl).
Defined.

End CoreProperties.

(** * Symmetries of the core *)

Section CoreSymmetry.
Import Rounding FloatAlgebra CoreFacts Negation.

(** The outcome of a call with its value negated. *)
Definition negated (r : exn + float) : exn + float :=
  match r with
  | inr x => inr (- x)%float
  | inl e => inl e
  end.

(** X9: Negating one argument of [percent_of], [scale_by_ratio] or [direct_k]
    negates the result exactly (rounding to nearest is symmetric) and leaves
    a failure as it is; negating both arguments changes nothing. *)
Theorem negation_symmetry :
  (forall part whole : float,
     result (percent_of (- part) whole) = negated (result (percent_of part whole)) /\
     result (percent_of part (- whole)) = negated (result (percent_of part whole)) /\
     result (percent_of (- part) (- whole)) = result (percent_of part whole)) /\
  (forall value ratio : float,
     result (scale_by_ratio (- value) ratio)
     = negated (result (scale_by_ratio value ratio)) /\
     result (scale_by_ratio value (- ratio))
     = negated (result (scale_by_ratio value ratio)) /\
     result (scale_by_ratio (- value) (- ratio))
     = result (scale_by_ratio value ratio)) /\
  (forall x y : float,
     result (direct_k x (- y)) = negated (result (direct_k x y)) /\
     result (direct_k (- x) y) = negated (result (direct_k x y)) /\
     result (direct_k (- x) (- y)) = result (direct_k x y)).
Proof.
  assert (P : forall part whole, ne0 whole = true ->
            result (percent_of part whole) = inr ((part / whole) * 100)%float).
  { intros part whole H. unfold percent_of.
    rewrite H, bind_assert_true, (fdiv_ne0 _ _ H). reflexivity. }
  assert (P0 : forall part whole, ne0 whole = false ->
            result (percent_of part whole)
            = inl (ZeroDenominator "whole cannot be zero")).
  { intros part whole H. unfold percent_of. rewrite H. reflexivity. }
  assert (K : forall x y, ne0 x = true ->
            result (direct_k x y) = inr (y / x)%float).
  { intros x y H. unfold direct_k.
    rewrite H, bind_assert_true, (fdiv_ne0 _ _ H). reflexivity. }
  assert (K0 : forall x y, ne0 x = false ->
            result (direct_k x y) = inl (ZeroDenominator "x cannot be zero")).
  { intros x y H. unfold direct_k. rewrite H. reflexivity. }
  split; [|split].
  - intros part whole. destruct (ne0 whole) eqn:E.
    + rewrite !P by (rewrite ?ne0_opp; exact E). cbn [negated].
      rewrite !fdiv_opp_r, !fdiv_opp_l, !fmul_opp_l, fopp_involutive. auto.
    + rewrite !P0 by (rewrite ?ne0_opp; exact E). auto.
  - intros value ratio. cbn.
    rewrite !fmul_opp_r, !fmul_opp_l, fopp_involutive. auto.
  - intros x y. destruct (ne0 x) eqn:E.
    + rewrite !K by (rewrite ?ne0_opp; exact E). cbn [negated].
      rewrite !fdiv_opp_r, !fdiv_opp_l, fopp_involutive. auto.
    + rewrite !K0 by (rewrite ?ne0_opp; exact E). auto.
Qed.

(** X10: The product taken by the code does not depend on the order of its
    factors: [scale_by_ratio] commutes, [solve_proportion] gives the same
    value when the two cross factors are exchanged, and solving for [a]
    given [d] is solving for [d] given [a] (likewise [b] and [c]). *)
Theorem product_symmetry :
  (forall value ratio : float,
     result (scale_by_ratio value ratio) = result (scale_by_ratio ratio value)) /\
  (forall b c d : float,
     result (solve_proportion None (Some b) (Some c) (Some d))
     = result (solve_proportion None (Some c) (Some b) (Some d))) /\
  (forall a b c : float,
     result (solve_proportion (Some a) (Some b) (Some c) None)
     = result (solve_proportion (Some a) (Some c) (Some b) None)) /\
  (forall a c d : float,
     result (solve_proportion (Some a) None (Some c) (Some d))
     = result (solve_proportion (Some d) None (Some c) (Some a))) /\
  (forall a b d : float,
     result (solve_proportion (Some a) (Some b) None (Some d))
     = result (solve_proportion (Some d) (Some b) None (Some a))) /\
  (forall b c x : float,
     result (solve_proportion None (Some b) (Some c) (Some x))
     = result (solve_proportion (Some x) (Some b) (Some c) None)) /\
  (forall a d x : float,
     result (solve_proportion (Some a) None (Some x) (Some d))
     = result (solve_proportion (Some a) (Some x) None (Some d))).
Proof.
  split; [|split; [|split; [|split; [|split; [|split]]]]].
  - intros value ratio. cbn. rewrite (fmul_comm value ratio). reflexivity.
  - intros b c d. rewrite !solve_for_a. destruct (ne0 d); [|reflexivity].
    cbn. rewrite (fmul_comm b c). reflexivity.
  - intros a b c. rewrite !solve_for_d. destruct (ne0 a); [|reflexivity].
    cbn. rewrite (fmul_comm b c). reflexivity.
  - intros a c d. rewrite !solve_for_b. destruct (ne0 c); [|reflexivity].
    cbn. rewrite (fmul_comm a d). reflexivity.
  - intros a b d. rewrite !solve_for_c. destruct (ne0 b); [|reflexivity].
    cbn. rewrite (fmul_comm a d). reflexivity.
  - intros b c x. rewrite solve_for_a, solve_for_d. reflexivity.
  - intros a d x. rewrite solve_for_b, solve_for_c. reflexivity.
Qed.

(** X11: A zero factor or numerator: [scale_by_ratio value 0] is a zero exactly
    when [value] is finite and NaN otherwise (so an infinite value does not
    scale to zero), and [percent_of 0 whole] is a zero for every [whole]
    accepted by the precondition except NaN. *)
Theorem zero_results :
  (forall value z : float, result (scale_by_ratio value 0) = inr z ->
     (z =? 0)%float = is_finite value /\ is_nan z = negb (is_finite value)) /\
  (forall whole p : float, result (percent_of 0 whole) = inr p ->
     (p =? 0)%float = negb (is_nan whole)).
Proof.
  split.
  - intros value z H. cbn in H. injection H as <-. apply fmul_zero_r.
  - intros whole p H. destruct (percent_of_inv 0 whole p H) as [E ->].
    apply zero_percent, E.
Qed.

Lemma zero_results_witness :
  (0 =? 0)%float = is_finite 100 /\ is_nan 0 = negb (is_finite 100).
Proof.
  exact (proj1 zero_results 100%float 0%float eq_refl).
Defined.

(** X12: An input accepted by the model validator is returned unchanged, and
    [solve_proportion] on its fields either returns a value or fails on the
    zero divisor of its branch: the missing-count and type errors are ruled
    out by the validation. *)
Theorem validated_input_solves_or_divides_by_zero (p q : ProportionInput) :
  result (validate_exactly_one_none p) = inr q ->
  q = p /\
  ((exists x, result (solve_proportion (pa q) (pb q) (pc q) (pd q)) = inr x) \/
   result (solve_proportion (pa q) (pb q) (pc q) (pd q))
   = inl (ZeroDenominator "denominator")).
Proof.
  unfold validate_exactly_one_none.
  destruct (Z.eqb_spec (none_count [pa p; pb p; pc p; pd p]) 1) as [E|N];
    [|discriminate].
  cbn. intros [= <-]. split; [reflexivity|].
  apply none_count_one in E. destruct p as [a b c d]; cbn in *.
  destruct E as [(y & z & w & E)|[(x & z & w & E)|[(x & y & w & E)|(x & y & z & E)]]];
    inversion E; subst.
  - rewrite solve_for_a. destruct (ne0 w); [left; eexists|right]; reflexivity.
  - rewrite solve_for_b. destruct (ne0 z); [left; eexists|right]; reflexivity.
  - rewrite solve_for_c. destruct (ne0 y); [left; eexists|right]; reflexivity.
  - rewrite solve_for_d. destruct (ne0 x); [left; eexists|right]; reflexivity.
Qed.

Lemma validated_input_solves_or_divides_by_zero_witness :
  let p := {| pa := Some 3%float; pb := Some 4%float; pc := Some 6%float; pd := None |} in
  p = p /\
  ((exists x, result (solve_proportion (pa p) (pb p) (pc p) (pd p)) = inr x) \/
   result (solve_proportion (pa p) (pb p) (pc p) (pd p))
   = inl (ZeroDenominator "denominator")).
Proof.
  exact (validated_input_solves_or_divides_by_zero
           {| pa := Some 3%float; pb := Some 4%float; pc := Some 6%float; pd := None |}
           _ eq_refl).
Defined.

End CoreSymmetry.

(** * Dictionaries

    A Python [dict] with string keys, as the list of its items in insertion
    order: assigning to a key that is present replaces its value in place,
    assigning to a new key appends it. *)

Module Dict.

Definition dict (V : Type) : Type := list (string * V).

(** [d[k] = v] *)
Fixpoint setitem {V} (d : dict V) (k : string) (v : V) : dict V :=
  match d with
  | [] => [(k, v)]
  | (k', v') :: d' =>
      if (k' =? k)%string then (k', v) :: d' else (k', v') :: setitem d' k v
  end.

(** [d.get(k)] *)
Fixpoint get {V} (d : dict V) (k : string) : option V :=
  match d with
  | [] => None
  | (k', v') :: d' => if (k' =? k)%string then Some v' else get d' k
  end.

(** [k in d] *)
Definition contains {V} (d : dict V) (k : string) : bool :=
  match get d k with Some _ => true | None => false end.

(** [d.update(items)] *)
Definition update {V} (d : dict V) (items : dict V) : dict V :=
  fold_left (fun acc kv => setitem acc (fst kv) (snd kv)) items d.

Definition keys {V} (d : dict V) : list string := map fst d.

Lemma get_setitem_same {V} (d : dict V) (k : string) (v : V) :
  get (setitem d k v) k = Some v.
Proof.
  induction d as [|[k' v'] d IH]; cbn.
  - rewrite String.eqb_refl. reflexivity.
  - destruct (String.eqb_spec k' k) as [->|N]; cbn.
    + rewrite String.eqb_refl. reflexivity.
    + destruct (String.eqb_spec k' k); [contradiction|exact IH].
Qed.

Lemma get_setitem_other {V} (d : dict V) (k k0 : string) (v : V) :
  k0 <> k -> get (setitem d k v) k0 = get d k0.
Proof.
  intros N. induction d as [|[k' v'] d IH]; cbn.
  - destruct (String.eqb_spec k k0); [congruence|reflexivity].
  - destruct (String.eqb_spec k' k) as [->|N']; cbn.
    + destruct (String.eqb_spec k k0); [congruence|reflexivity].
    + destruct (String.eqb_spec k' k0); [reflexivity|exact IH].
Qed.

End Dict.

(** * Configuration, [src/config.py] *)

Module Config.
Import Dict.

(** The fields of [Settings]. *)
Record Settings : Type := {
  server_name : string;
  server_port : Z;
  mcp_token : option string;
  max_request_size : Z;
  debug : bool;
  reload : bool;
  log_level : string
}.

(** What the environment helpers read: [os.environ], and whether the file
    [/.dockerenv] exists. *)
Record Environment : Type := {
  environ : dict string;
  dockerenv_exists : bool
}.

(** [v is not None] and the truth value of an optional string (a string is
    true when it is not empty). *)
Definition is_not_None (v : option string) : bool :=
  match v with None => false | Some _ => true end.

Definition truthy (v : option string) : bool :=
  match v with
  | None => false
  | Some s => negb (s =? "")%string
  end.

(** [Settings.is_production] *)
Definition is_production (self : Settings) : bool :=
  negb (debug self) && is_not_None (mcp_token self).

(** [Settings.validate_production_settings] *)
Definition validate_production_settings (self : Settings) : M unit :=
  if is_production self then
    py_assert (truthy (mcp_token self))
      "MCP_TOKEN environment variable is required for production deployment"
  else ret tt.

(** [is_huggingface_space] and [is_docker] *)
Definition is_huggingface_space (env : Environment) : bool :=
  contains (environ env) "SPACE_ID".

Definition is_docker (env : Environment) : bool :=
  dockerenv_exists env || contains (environ env) "DOCKER_CONTAINER".

(** [get_deployment_info], for the global [settings] and the environment it
    runs in. *)
Definition get_deployment_info (settings : Settings) (env : Environment)
  : dict string :=
  let info := [("environment", "unknown"); ("platform", "local")]%string in
  if is_huggingface_space env then
    let info := setitem info "platform" "huggingface_spaces"%string in
    setitem info "environment" "production"%string
  else if is_docker env then
    let info := setitem info "platform" "docker"%string in
    setitem info "environment"
      (if is_production settings then "production" else "development")%string
  else
    let info := setitem info "platform" "local"%string in
    setitem info "environment" "development"%string.

(** X15: The production check asks for a token only where one is present:
    [validate_production_settings] fails exactly when debug is off and the
    token is the empty string; with no token at all the settings do not count
    as production and the validation passes. *)
Theorem validate_production_settings_spec (self : Settings) :
  (result (validate_production_settings self)
   = inl (AssertionError
            "MCP_TOKEN environment variable is required for production deployment")
   <-> debug self = false /\ mcp_token self = Some ""%string) /\
  (result (validate_production_settings self) = inr tt
   <-> ~ (debug self = false /\ mcp_token self = Some ""%string)) /\
  (mcp_token self = None ->
   is_production self = false /\
   result (validate_production_settings self) = inr tt).
Proof.
  unfold validate_production_settings, is_production.
  destruct self as [sn sp tok mrs dbg rl ll]; cbn.
  destruct dbg, tok as [t|]; cbn;
    try (repeat split; try discriminate; try reflexivity;
         intros; intuition discriminate).
  destruct (String.eqb_spec t "") as [->|N]; cbn.
  - repeat split; try discriminate; try reflexivity; intros; intuition discriminate.
  - repeat split; try discriminate; try reflexivity; intros; try intuition congruence.
Qed.

Lemma validate_production_settings_spec_witness :
  let s := {| server_name := "0.0.0.0"; server_port := 7860; mcp_token := None;
              max_request_size := 65536; debug := false; reload := false;
              log_level := "INFO" |} in
  is_production s = false /\ result (validate_production_settings s) = inr tt.
Proof.
  exact (proj2 (proj2 (validate_production_settings_spec
           {| server_name := "0.0.0.0"; server_port := 7860; mcp_token := None;
              max_request_size := 65536; debug := false; reload := false;
              log_level := "INFO" |})) eq_refl).
Defined.

(** X16: [get_deployment_info] always returns the two keys [environment] and
    [platform], in this order, and never leaves the environment [unknown]:
    Hugging Face Spaces wins over Docker and is always production, Docker is
    production exactly when the settings are, and anything else is local
    development, whatever the settings say. *)
Theorem get_deployment_info_spec (settings : Settings) (env : Environment) :
  let info := get_deployment_info settings env in
  keys info = ["environment"; "platform"]%string /\
  (get info "environment" = Some "production"%string \/
   get info "environment" = Some "development"%string) /\
  (get info "environment" = Some "production"%string <->
   is_huggingface_space env = true \/
   (is_docker env = true /\ is_production settings = true)) /\
  (get info "platform" = Some "huggingface_spaces"%string <->
   is_huggingface_space env = true) /\
  (get info "platform" = Some "docker"%string <->
   is_huggingface_space env = false /\ is_docker env = true) /\
  (get info "platform" = Some "local"%string <->
   is_huggingface_space env = false /\ is_docker env = false).
Proof.
  unfold get_deployment_info.
  destruct (is_huggingface_space env), (is_docker env), (is_production settings);
    cbn; repeat split; auto; try discriminate;
    intros; intuition discriminate.
Qed.

End Config.

(** * The launch configuration, [src/app.py] *)

Module App.
Import Dict Config.

(** The values of the keyword arguments. *)
Inductive pyobj : Type :=
| PyStr (s : string)
| PyInt (n : Z)
| PyBool (b : bool).

(** The dictionary [launch_kwargs] that [main] builds and passes to
    [demo.launch]: the settings first, then the development entry, then the
    Hugging Face Spaces overrides. *)
Definition launch_kwargs (settings : Settings) (env : Environment) : dict pyobj :=
  let launch_kwargs :=
    [("server_name", PyStr (server_name settings));
     ("server_port", PyInt (server_port settings));
     ("mcp_server", PyBool true);
     ("show_error", PyBool (debug settings));
     ("quiet", PyBool (negb (debug settings)));
     ("prevent_thread_lock", PyBool false)]%string in
  let launch_kwargs :=
    if negb (is_production settings) then
      update launch_kwargs [("debug", PyBool (debug settings))]%string
    else launch_kwargs in
  let launch_kwargs :=
    if is_huggingface_space env then
      update launch_kwargs
        [("server_name", PyStr "0.0.0.0");
         ("share", PyBool false);
         ("quiet", PyBool true)]%string
    else launch_kwargs in
  launch_kwargs.

(** X17: What [main] launches with: the MCP server is always on and the port is
    always the configured one; on Hugging Face Spaces the server binds
    [0.0.0.0], stays quiet and never shares, whatever the settings say;
    elsewhere the configured address is used, no [share] argument is passed
    and the launch is quiet exactly when debug is off; the [debug] argument
    is passed exactly when the settings are not production ones; and no
    argument is passed twice. *)
Theorem launch_kwargs_spec (settings : Settings) (env : Environment) :
  let kw := launch_kwargs settings env in
  get kw "mcp_server" = Some (PyBool true) /\
  get kw "server_port" = Some (PyInt (server_port settings)) /\
  get kw "show_error" = Some (PyBool (debug settings)) /\
  get kw "prevent_thread_lock" = Some (PyBool false) /\
  get kw "server_name"
  = Some (PyStr (if is_huggingface_space env then "0.0.0.0"
                 else server_name settings)) /\
  get kw "quiet"
  = Some (PyBool (is_huggingface_space env || negb (debug settings))) /\
  get kw "share"
  = (if is_huggingface_space env then Some (PyBool false) else None) /\
  get kw "debug"
  = (if is_production settings then None else Some (PyBool (debug settings))) /\
  NoDup (keys kw).
Proof.
  unfold launch_kwargs.
  destruct (is_production settings), (is_huggingface_space env); cbn;
    repeat split; try reflexivity;
    repeat (constructor; [cbn; intuition discriminate|]); constructor.
Qed.

(** X18: Production settings never show errors: when no [debug] argument is
    passed, [show_error] is false and the launch is quiet. *)
Theorem production_launch_is_quiet (settings : Settings) (env : Environment) :
  get (launch_kwargs settings env) "debug" = None ->
  get (launch_kwargs settings env) "show_error" = Some (PyBool false) /\
  get (launch_kwargs settings env) "quiet" = Some (PyBool true).
Proof.
  unfold launch_kwargs, is_production.
  destruct (debug settings), (is_not_None (mcp_token settings)),
    (is_huggingface_space env); cbn; intros H; try discriminate H;
    split; reflexivity.
Qed.

Lemma production_launch_is_quiet_witness :
  let s := {| server_name := "127.0.0.1"; server_port := 7860;
              mcp_token := Some "secret"%string; max_request_size := 65536;
              debug := false; reload := false; log_level := "INFO" |} in
  let e := {| environ := []; dockerenv_exists := false |} in
  get (launch_kwargs s e) "show_error" = Some (PyBool false) /\
  get (launch_kwargs s e) "quiet" = Some (PyBool true).
Proof.
  exact (production_launch_is_quiet
           {| server_name := "127.0.0.1"; server_port := 7860;
              mcp_token := Some "secret"%string; max_request_size := 65536;
              debug := false; reload := false; log_level := "INFO" |}
           {| environ := []; dockerenv_exists := false |} eq_refl).
Defined.

End App.

(** * The proportion form, [demo_solve_proportion] *)

Module Demo.

(** A failure of the form handler: a failure of the core, or the
    [ValueError] of [float] on a field that is not a number. *)
Inductive demo_exn : Type :=
| CoreError (e : exn)
| ValueError.

Section WithBuiltins.

(** Python's [float] on a string ([None] when it raises [ValueError]) and
    the format [:.4f]: builtins of the language, taken as given. *)
Variable float_of_string : string -> option float.
Variable format_4f : float -> string.

(** [None if a == "" or a is None else float(a)]; the outer [None] is the
    [ValueError] of [float]. *)
Definition field_value (a : option string) : option pyval :=
  match a with
  | None => Some None
  | Some t =>
      if (t =? "")%string then Some None
      else match float_of_string t with
           | Some x => Some (Some x)
           | None => None
           end
  end.

Definition demo_solve_proportion (a b c d : option string) : demo_exn + string :=
  match field_value a with
  | None => inl ValueError
  | Some a_val =>
  match field_value b with
  | None => inl ValueError
  | Some b_val =>
  match field_value c with
  | None => inl ValueError
  | Some c_val =>
  match field_value d with
  | None => inl ValueError
  | Some d_val =>
      match result (solve_proportion a_val b_val c_val d_val) with
      | inl e => inl (CoreError e)
      | inr r => inr ("Missing value: " ++ format_4f r)%string
      end
  end end end end.

(** A field left empty, or absent. *)
Definition blank (a : option string) : bool :=
  match a with
  | None => true
  | Some t => (t =? "")%string
  end.

Definition blank_count (fields : list (option string)) : nat :=
  List.length (filter blank fields).

Lemma field_value_blank (a : option string) (v : pyval) :
  field_value a = Some v -> is_None v = blank a.
Proof.
  unfold field_value, blank. destruct a as [t|]; [|intros [= <-]; reflexivity].
  destruct (t =? "")%string; [intros [= <-]; reflexivity|].
  destruct (float_of_string t); [intros [= <-]; reflexivity|discriminate].
Qed.

Lemma field_value_None_blank (a : option string) :
  field_value a = None -> blank a = false.
Proof.
  unfold field_value, blank. destruct a as [t|]; [|discriminate].
  destruct (t =? "")%string; [discriminate|reflexivity].
Qed.

Lemma none_count_blank_count (a b c d : option string) (av bv cv dv : pyval) :
  field_value a = Some av -> field_value b = Some bv ->
  field_value c = Some cv -> field_value d = Some dv ->
  none_count [av; bv; cv; dv] = Z.of_nat (blank_count [a; b; c; d]).
Proof.
  intros Ha Hb Hc Hd. apply field_value_blank in Ha, Hb, Hc, Hd.
  unfold none_count, blank_count. cbn [filter].
  rewrite Ha, Hb, Hc, Hd.
  destruct (blank a), (blank b), (blank c), (blank d); reflexivity.
Qed.

(** X13: The form handler converts all four fields before it calls the core: a
    field that is neither empty nor a number fails with [ValueError],
    whatever the other fields are (even when none or several are empty).
    When every filled field is a number, the call fails with
    InvalidMissingCount exactly when the number of empty fields is not one;
    an absent field and an empty one are treated alike. *)
Theorem demo_solve_proportion_errors :
  (forall a b c d : option string,
     (field_value a = None \/ field_value b = None \/
      field_value c = None \/ field_value d = None) <->
     demo_solve_proportion a b c d = inl ValueError) /\
  (forall (a b c d : option string) (av bv cv dv : pyval),
     field_value a = Some av -> field_value b = Some bv ->
     field_value c = Some cv -> field_value d = Some dv ->
     (demo_solve_proportion a b c d = inl (CoreError InvalidMissingCount) <->
      blank_count [a; b; c; d] <> 1%nat)) /\
  (forall b c d : option string,
     demo_solve_proportion None b c d = demo_solve_proportion (Some ""%string) b c d).
Proof.
  split; [|split].
  - intros a b c d. unfold demo_solve_proportion.
    destruct (field_value a) as [av|]; [|split; auto].
    destruct (field_value b) as [bv|]; [|split; auto].
    destruct (field_value c) as [cv|]; [|split; auto].
    destruct (field_value d) as [dv|]; [|split; auto].
    destruct (result (solve_proportion av bv cv dv)); split;
      try discriminate; intros [H|[H|[H|H]]]; discriminate H.
  - intros a b c d av bv cv dv Ha Hb Hc Hd.
    pose proof (none_count_blank_count a b c d av bv cv dv Ha Hb Hc Hd) as E.
    unfold demo_solve_proportion. rewrite Ha, Hb, Hc, Hd.
    destruct (Z.eq_dec (none_count [av; bv; cv; dv]) 1) as [E1|N1].
    + split; [|intros N; exfalso; apply N; rewrite E in E1; lia].
      intros H. exfalso. apply none_count_one in E1.
      destruct E1 as [(y & z & w & E1)|[(x & z & w & E1)|[(x & y & w & E1)|(x & y & z & E1)]]];
        inversion E1; subst.
      * rewrite solve_for_a in H. destruct (ne0 w); discriminate H.
      * rewrite solve_for_b in H. destruct (ne0 z); discriminate H.
      * rewrite solve_for_c in H. destruct (ne0 y); discriminate H.
      * rewrite solve_for_d in H. destruct (ne0 x); discriminate H.
    + rewrite (wrong_count_fails av bv cv dv N1).
      split; [intros _ B; apply N1; rewrite E, B; reflexivity|intros _; reflexivity].
  - intros b c d. reflexivity.
Qed.

(** X14: With exactly one field empty and numbers in the others, the form returns
    the formatted value of [solve_proportion], or its failure. *)
Theorem demo_solve_proportion_result (a b c d : option string) (av bv cv dv : pyval) :
  field_value a = Some av -> field_value b = Some bv ->
  field_value c = Some cv -> field_value d = Some dv ->
  blank_count [a; b; c; d] = 1%nat ->
  (exists x, result (solve_proportion av bv cv dv) = inr x /\
             demo_solve_proportion a b c d = inr ("Missing value: " ++ format_4f x)%string) \/
  (result (solve_proportion av bv cv dv) = inl (ZeroDenominator "denominator") /\
   demo_solve_proportion a b c d = inl (CoreError (ZeroDenominator "denominator"))).
Proof.
  intros Ha Hb Hc Hd B.
  pose proof (none_count_blank_count a b c d av bv cv dv Ha Hb Hc Hd) as E.
  rewrite B in E. unfold demo_solve_proportion. rewrite Ha, Hb, Hc, Hd.
  apply none_count_one in E.
  destruct E as [(y & z & w & E)|[(x & z & w & E)|[(x & y & w & E)|(x & y & z & E)]]];
    inversion E; subst.
  - rewrite solve_for_a. destruct (ne0 w); [left; eexists|right]; split; reflexivity.
  - rewrite solve_for_b. destruct (ne0 z); [left; eexists|right]; split; reflexivity.
  - rewrite solve_for_c. destruct (ne0 y); [left; eexists|right]; split; reflexivity.
  - rewrite solve_for_d. destruct (ne0 x); [left; eexists|right]; split; reflexivity.
Qed.

End WithBuiltins.

Local Open Scope string_scope.

(** A parser and a format for the examples: the three numbers of the default
    form, and a format that only tells [8.0] apart. *)
Definition example_float (t : string) : option float :=
  if (t =? "3")%string then Some 3%float
  else if (t =? "4")%string then Some 4%float
  else if (t =? "6")%string then Some 6%float
  else None.

Definition example_format (x : float) : string :=
  if (x =? 8)%float then "8.0000"%string else "?"%string.

Lemma demo_solve_proportion_errors_witness :
  demo_solve_proportion example_float example_format
    (Some "3") (Some "") (Some "6") (Some "")%string
  = inl (CoreError InvalidMissingCount) <->
  blank_count [Some "3"; Some ""; Some "6"; Some ""]%string <> 1%nat.
Proof.
  exact (proj1 (proj2 (demo_solve_proportion_errors example_float example_format))
           (Some "3") (Some "") (Some "6") (Some "")%string
           (Some 3%float) None (Some 6%float) None
           eq_refl eq_refl eq_refl eq_refl).
Defined.

Lemma demo_solve_proportion_result_witness :
  (exists x, result (solve_proportion (Some 3%float) (Some 4%float) (Some 6%float) None)
             = inr x /\
             demo_solve_proportion example_float example_format
               (Some "3") (Some "4") (Some "6") (Some "")%string
             = inr ("Missing value: " ++ example_format x)%string) \/
  (result (solve_proportion (Some 3%float) (Some 4%float) (Some 6%float) None)
   = inl (ZeroDenominator "denominator") /\
   demo_solve_proportion example_float example_format
     (Some "3") (Some "4") (Some "6") (Some "")%string
   = inl (CoreError (ZeroDenominator "denominator"))).
Proof.
  exact (demo_solve_proportion_result example_float example_format
           (Some "3") (Some "4") (Some "6") (Some "")%string
           (Some 3%float) (Some 4%float) (Some 6%float) None
           eq_refl eq_refl eq_refl eq_refl eq_refl).
Defined.

End Demo.

(** * Failing leaves no trace *)

Section Atomicity.

(** X2: Whenever one of the five functions fails, it has evaluated no
    multiplication or division and written no log record: every check comes
    before the first operation. *)
Theorem failure_is_atomic :
  (forall part whole e, result (percent_of part whole) = inl e ->
     trace (percent_of part whole) = []) /\
  (forall a b c d e, result (solve_proportion a b c d) = inl e ->
     trace (solve_proportion a b c d) = []) /\
  (forall value ratio e, result (scale_by_ratio value ratio) = inl e ->
     trace (scale_by_ratio value ratio) = []) /\
  (forall x y e, result (direct_k x y) = inl e -> trace (direct_k x y) = []) /\
  (forall w h s e, result (resize_dimensions w h s) = inl e ->
     trace (resize_dimensions w h s) = []).
Proof.
  split; [|split; [|split; [|split]]].
  - intros part whole e. unfold percent_of. destruct (ne0 whole) eqn:E.
    + rewrite bind_assert_true, (fdiv_ne0 _ _ E). discriminate.
    + reflexivity.
  - intros a b c d e.
    destruct (Z.eq_dec (none_count [a; b; c; d]) 1) as [E|N].
    + apply none_count_one in E.
      destruct E as [(y & z & w & E)|[(x & z & w & E)|[(x & y & w & E)|(x & y & z & E)]]];
        inversion E; subst.
      * rewrite solve_for_a. destruct (ne0 w); [discriminate|reflexivity].
      * rewrite solve_for_b. destruct (ne0 z); [discriminate|reflexivity].
      * rewrite solve_for_c. destruct (ne0 y); [discriminate|reflexivity].
      * rewrite solve_for_d. destruct (ne0 x); [discriminate|reflexivity].
    + rewrite (wrong_count_fails _ _ _ _ N). reflexivity.
  - intros value ratio e. discriminate.
  - intros x y e. unfold direct_k. destruct (ne0 x) eqn:E.
    + rewrite bind_assert_true, (fdiv_ne0 _ _ E). discriminate.
    + reflexivity.
  - intros w h s e. unfold resize_dimensions.
    destruct (ge0 w); [|reflexivity]. destruct (ge0 h); [|reflexivity].
    destruct (gt0 s); [discriminate|reflexivity].
Qed.

Lemma failure_is_atomic_witness :
  trace (resize_dimensions 100 50 0) = [].
Proof.
  exact (proj2 (proj2 (proj2 (proj2 failure_is_atomic)))
           100%float 50%float 0%float NonPositiveScale eq_refl).
Defined.

Lemma failures_are_assertions_witness :
  is_assertion (ZeroDenominator "x cannot be zero").
Proof.
  exact (proj1 (proj2 (proj2 (proj2 failures_are_assertions)))
           0%float 10%float (ZeroDenominator "x cannot be zero") eq_refl).
Defined.

End Atomicity.
